(** * Trillian CloudSpanner tree storage: transactions, revisions, subtree reads

    A shallow embedding of [storage/cloudspanner/tree_storage.go]: the
    node-to-subtree key mapping, the revisioned subtree read, the lazily
    resolved tree head, the buffering of node writes in the subtree cache and
    the Commit / Rollback / Close life cycle of a tree transaction.

    The Spanner client, the proto codecs and the subtree cache are outside the
    package; they appear here as the values their calls yield (row iterators,
    decoded blobs) and as an interface ([SubtreeCache]). *)

From Stdlib Require Import ZArith Lia Sorted.
From Stdlib.Strings Require Import Byte.
From stdpp Require Import base option list gmap strings.

Local Open Scope Z_scope.

(** ** Go values *)

Abbreviation byte := Byte.byte.

#[global] Instance byte_eq_dec : EqDecision byte := Byte.byte_eq_dec.

(** [bytes.Equal]: nil and the empty slice are equal. *)
Definition bytes_Equal (a b : list byte) : bool := bool_decide (a = b).

(** A [[]byte] passed to a slice expression: the [len] visible elements and
    the elements of the backing array between [len] and [cap].  The Go
    language fixes the bound of [s[:high]] on a slice at [cap(s)], not at
    [len(s)]: "for slices, the upper index bound is the slice capacity". *)
Record Slice := mkSlice {
  elems : list byte;
  spare : list byte;
}.

Definition len (s : Slice) : Z := Z.of_nat (length (elems s)).
Definition cap (s : Slice) : Z := Z.of_nat (length (elems s ++ spare s)).

(** An error of the backend client or of a codec; opaque to this package. *)
Definition ExtErr := nat.

(** Go [error] values that this package creates or receives; [nil] is [None]
    of [option Error].  The [fmt.Errorf] values carry their arguments. *)
Inductive Error : Type :=
  | ErrNotFound
  | ErrNotImplemented
  | ErrTransactionClosed
  | ErrWrongTXType
  | errFinished
  | ErrTreeNeedsInit                                  (* storage.ErrTreeNeedsInit *)
  | ErrNotAligned (prefixLenBits : Z)                 (* "id.PrefixLenBits (%d) is not a multiple of 8..." *)
  | ErrPrefixMismatch (got : list byte) (want : option (list byte))
  | ErrRevTooNew (got want : Z)
  | ErrUnknownTxType
  | External (e : ExtErr)
  | CacheError (e : nat).

#[global] Instance Error_eq_dec : EqDecision Error.
Proof. solve_decision. Defined.

Inductive PanicValue : Type :=
  | PanicError (e : Error)                            (* panic(err) *)
  | SliceBoundsOutOfRange (high capacity : Z)         (* runtime error of a slice expression *)
  | NilDereference.                                   (* method call on a nil interface *)

(** The outcome of a call: it returns, it panics, or it blocks forever. *)
Inductive Run (A : Type) : Type :=
  | Returns (a : A)
  | Panics (p : PanicValue)
  | Blocks.
Arguments Returns {A} a.
Arguments Panics {A} p.
Arguments Blocks {A}.

#[global] Instance Run_ret : MRet Run := fun A a => Returns a.

#[global] Instance Run_bind : MBind Run := fun A B k m =>
  match m with
  | Returns a => k a
  | Panics p => Panics p
  | Blocks => Blocks
  end.

(** [s[:high]]: in range iff [0 <= high <= cap(s)]. *)
Definition slice_to (s : Slice) (high : Z) : Run (list byte) :=
  if bool_decide (0 <= high <= cap s)
  then Returns (take (Z.to_nat high) (elems s ++ spare s))
  else Panics (SliceBoundsOutOfRange high (cap s)).

(** ** Node identifiers and the subtree key *)

(** [storage.NodeID]: a bit path and the number of its leading bits in use.
    [PrefixLenBits] is a Go [int]; [%] and [/] truncate towards zero. *)
Record NodeID := mkNodeID {
  Path : Slice;
  PrefixLenBits : Z;
}.

Definition subtreeKey (id : NodeID) : Run (list byte * option Error) :=
  if negb (Z.rem (PrefixLenBits id) 8 =? 0)
  then Returns ([], Some (ErrNotAligned (PrefixLenBits id)))
  else key ← slice_to (Path id) (Z.quot (PrefixLenBits id) 8);
       Returns (key, None).

(** The prefix a byte-aligned NodeID denotes: its first [PrefixLenBits/8]
    path bytes. *)
Definition aligned (id : NodeID) : Prop := Z.rem (PrefixLenBits id) 8 = 0.

Definition in_path (id : NodeID) : Prop :=
  0 <= PrefixLenBits id /\ Z.quot (PrefixLenBits id) 8 <= len (Path id).

Definition prefix_bytes (id : NodeID) : list byte :=
  take (Z.to_nat (Z.quot (PrefixLenBits id) 8)) (elems (Path id)).

(** ** Stored data *)

(** [storagepb.SubtreeProto].  A nil [Prefix] is [None]. *)
Record SubtreeProto := mkSubtreeProto {
  Prefix : option (list byte);
  Depth : Z;
  RootHash : list byte;
  Leaves : gmap string (list byte);
  InternalNodes : gmap string (list byte);
}.

(** A serialized message, represented by what [proto.Unmarshal] yields on
    it: the message, or a codec error. *)
Inductive Blob (A : Type) : Type :=
  | Encoded (a : A)
  | Malformed (e : ExtErr).
Arguments Encoded {A} a.
Arguments Malformed {A} e.

Definition Unmarshal {A} (b : Blob A) : A + Error :=
  match b with
  | Encoded a => inl a
  | Malformed e => inr (External e)
  end.

Definition Marshal {A} (a : A) : Blob A + Error := inl (Encoded a).

(** A row of a read of [SubtreeData] with columns [Revision], [Subtree];
    [BadRow] is a row on which [r.Columns] fails. *)
Inductive SubtreeRow : Type :=
  | Row (rRev : Z) (stBytes : Blob SubtreeProto)
  | BadRow (e : ExtErr).

Definition Columns (r : SubtreeRow) : (Z * Blob SubtreeProto) + Error :=
  match r with
  | Row rRev stBytes => inl (rRev, stBytes)
  | BadRow e => inr (External e)
  end.

Definition DigitallySigned := list byte.
Definition Any := list byte.

(** [spannerpb.TreeHead], by the fields [latestSTH] fills. *)
Record TreeHead := mkTreeHead {
  TreeId : Z;
  TsNanos : Z;
  TreeSize : Z;
  thRootHash : list byte;
  Signature : option DigitallySigned;
  TreeRevision : Z;
  Metadata : option Any;
}.

(** A row of the [TreeHeads] query. *)
Inductive TreeHeadRow : Type :=
  | HeadRow (treeId tsNanos treeSize : Z) (rootHash : list byte)
            (sig : Blob DigitallySigned) (treeRevision : Z) (meta : Blob Any)
  | BadHeadRow (e : ExtErr).

(** [*spanner.RowIterator]: the rows it delivers, in order, and the error it
    ends with, if any. *)
Record RowIterator (R : Type) := mkRows {
  delivered : list R;
  failure : option ExtErr;
}.
Arguments mkRows {R} delivered failure.
Arguments delivered {R} r.
Arguments failure {R} r.

(** What a transaction scope reads: the [TreeHeads] query of [latestSTH] by
    its [tree_id] parameter, and the prefix read of [SubtreeData] by tree and
    subtree key. *)
Record Reader := mkReader {
  Query : Z -> RowIterator TreeHeadRow;
  Read : Z -> list byte -> RowIterator SubtreeRow;
}.

(** [spanner.Insert(subtreeTbl, {TreeID, SubtreeID, Revision, Subtree}, ...)] *)
Record Mutation := Insert {
  mTable : string;
  mTreeID : Z;
  mSubtreeID : option (list byte);
  mRevision : Z;
  mSubtree : Blob SubtreeProto;
}.

Definition subtreeTbl : string := "SubtreeData".

(** The dynamic type of a [spanRead] value.  A read-write transaction holds
    the mutations buffered so far; it accepts more while it is active. *)
Inductive spanRead : Type :=
  | ReadOnlyTransaction (r : Reader)
  | ReadWriteTransaction (r : Reader) (active : bool) (wb : list Mutation)
  | OtherRead (r : Reader).

Definition reader (s : spanRead) : Reader :=
  match s with
  | ReadOnlyTransaction r => r
  | ReadWriteTransaction r _ _ => r
  | OtherRead r => r
  end.

(** The mutations a scope has buffered. *)
Definition buffered (s : option spanRead) : list Mutation :=
  match s with
  | Some (ReadWriteTransaction _ _ wb) => wb
  | _ => []
  end.

(** [rows.Do(f)]: [f] on every delivered row until it returns an error; the
    closure's captured variables are the state [S]. *)
Fixpoint forEachRow {R S} (f : R -> S -> S * option Error) (rs : list R) (s : S)
  : S * option Error :=
  match rs with
  | [] => (s, None)
  | r :: rs' =>
      match f r s with
      | (s', Some e) => (s', Some e)
      | (s', None) => forEachRow f rs' s'
      end
  end.

Definition Do {R S} (it : RowIterator R) (f : R -> S -> S * option Error) (s : S)
  : S * option Error :=
  match forEachRow f (delivered it) s with
  | (s', Some e) => (s', Some e)
  | (s', None) => (s', External <$> failure it)
  end.

(** ** int64 arithmetic *)

Definition wrap64 (z : Z) : Z := (z + 2 ^ 63) mod 2 ^ 64 - 2 ^ 63.
Definition add64 (a b : Z) : Z := wrap64 (a + b).
Definition sub64 (a b : Z) : Z := wrap64 (a - b).

(** ** The subtree cache *)

Record Node := mkNode {
  nodeID : NodeID;
  Hash : list byte;
  NodeRevision : Z;
}.

Definition GetSubtreeFunc := NodeID -> Run (option SubtreeProto * option Error).
Definition GetSubtreesFunc := list NodeID -> Run (option (list SubtreeProto) * option Error).
Definition SetSubtreesFunc (W : Type) := list (option SubtreeProto) -> W -> W * option Error.

(** [cache.SubtreeCache], as this package uses it.  The state the writer
    passed to [Flush] acts on is [W]. *)
Class SubtreeCache (C : Type) := {
  GetNodes : C -> list NodeID -> GetSubtreesFunc ->
             Run (C * (option (list Node) * option Error));
  SetNodeHash : C -> NodeID -> list byte -> GetSubtreeFunc -> Run (C * option Error);
  Flush : forall {W : Type}, C -> SetSubtreesFunc W -> W -> C * (W * option Error);
}.

(** ** The tree transaction *)

Record treeTX (C : Type) := mkTreeTX {
  treeID : Z;
  stx : option spanRead;
  _currentSTH : option TreeHead;
  _currentSTHErr : option Error;
  _writeRev : Z;
  cache : C;
  getLatestRootOnce : bool;          (* whether the sync.Once has run *)
}.
Arguments mkTreeTX {C}.
Arguments treeID {C} t.
Arguments stx {C} t.
Arguments _currentSTH {C} t.
Arguments _currentSTHErr {C} t.
Arguments _writeRev {C} t.
Arguments cache {C} t.
Arguments getLatestRootOnce {C} t.

Definition set_stx {C} (t : treeTX C) (s : option spanRead) : treeTX C :=
  mkTreeTX (treeID t) s (_currentSTH t) (_currentSTHErr t) (_writeRev t) (cache t)
           (getLatestRootOnce t).

Definition set_cache {C} (t : treeTX C) (c : C) : treeTX C :=
  mkTreeTX (treeID t) (stx t) (_currentSTH t) (_currentSTHErr t) (_writeRev t) c
           (getLatestRootOnce t).

(** The row callback of [latestSTH]; the captured [th] is the state. *)
Definition readHead (r : TreeHeadRow) (th : option TreeHead)
  : option TreeHead * option Error :=
  match r with
  | BadHeadRow e => (th, Some (External e))
  | HeadRow treeId tsNanos treeSize rootHash sig treeRevision meta =>
      match Unmarshal sig with
      | inr e => (th, Some e)
      | inl sigPB =>
          match Unmarshal meta with
          | inr e => (th, Some e)
          | inl metaPB =>
              (Some (mkTreeHead treeId tsNanos treeSize rootHash (Some sigPB)
                                treeRevision (Some metaPB)), None)
          end
      end
  end.

(** [latestSTH] reads and returns the newest STH. *)
Definition latestSTH (stx : option spanRead) (treeID : Z)
  : Run (option TreeHead * option Error) :=
  match stx with
  | None => Panics NilDereference
  | Some s =>
      let rows := Query (reader s) treeID in
      match Do rows readHead None with
      | (_, Some err) => Returns (None, Some err)
      | (None, None) => Returns (None, Some ErrTreeNeedsInit)
      | (Some th, None) => Returns (Some th, None)
      end
  end.

(** "If this is a subtree with a zero-length prefix, we'll need to create an
    empty Prefix field": the subtree [ret] points to, after that assignment. *)
Definition emptyPrefix (stID : list byte) (st : SubtreeProto) : SubtreeProto :=
  if bool_decide (Prefix st = None) && bool_decide (length stID = 0%nat)
  then mkSubtreeProto (Some []) (Depth st) (RootHash st) (Leaves st) (InternalNodes st)
  else st.

(** The row callback of [getSubtree]; the captured [ret] is the state. *)
Definition readSubtree (stID : list byte) (rev : Z) (r : SubtreeRow)
  (ret : option SubtreeProto) : option SubtreeProto * option Error :=
  match Columns r with
  | inr e => (ret, Some e)
  | inl (rRev, stBytes) =>
      match Unmarshal stBytes with
      | inr e => (ret, Some e)
      | inl st =>
          if rRev >? rev then (ret, None)
          else if negb (bytes_Equal stID (default [] (Prefix st)))
          then (ret, Some (ErrPrefixMismatch stID (Prefix st)))
          else if rRev >? rev then (ret, Some (ErrRevTooNew rRev rev))
          else (Some (emptyPrefix stID st), Some errFinished)
      end
  end.

Section TreeTX.
Context {C : Type} `{SubtreeCache C}.

(** [begin]: the tree lookup and the cache constructor are calls out of the
    package; their outcomes are arguments here. *)
Definition begin (getTreeAndConfig : option Error) (newCache : C + Error)
  (treeID : Z) (stx : spanRead) : option (treeTX C) * option Error :=
  match getTreeAndConfig with
  | Some err => (None, Some err)
  | None =>
      match newCache with
      | inr err => (None, Some err)
      | inl cache => (Some (mkTreeTX treeID (Some stx) None None 0 cache false), None)
      end
  end.

(** [getLatestRoot]: the body runs under [getLatestRootOnce]. *)
Definition getLatestRoot (t : treeTX C) : Run (treeTX C * option Error) :=
  if getLatestRootOnce t then Returns (t, _currentSTHErr t)
  else
    '(sth, err) ← latestSTH (stx t) (treeID t);
    let w := match sth with
             | Some th => add64 (TreeRevision th) 1
             | None => _writeRev t
             end in
    Returns (mkTreeTX (treeID t) (stx t) sth err w (cache t) true, err).

Definition currentSTH (t : treeTX C)
  : Run (treeTX C * (option TreeHead * option Error)) :=
  '(t', err) ← getLatestRoot t;
  match err with
  | Some e => Returns (t', (None, Some e))
  | None => Returns (t', (_currentSTH t', None))
  end.

Definition writeRev (t : treeTX C) : Run (treeTX C * (Z * option Error)) :=
  '(t', err) ← getLatestRoot t;
  match err with
  | Some e => Returns (t', (-1, Some e))
  | None => Returns (t', (_writeRev t', None))
  end.

Definition ReadRevision (t : treeTX C) : Run (treeTX C * Z) :=
  '(t', (sth, err)) ← currentSTH t;
  match err with
  | Some e => Panics (PanicError e)
  | None =>
      match sth with
      | Some th => Returns (t', TreeRevision th)
      | None => Panics NilDereference
      end
  end.

Definition WriteRevision (t : treeTX C) : Run (treeTX C * Z) :=
  '(t', (rev, err)) ← writeRev t;
  match err with
  | Some e => Panics (PanicError e)
  | None => Returns (t', rev)
  end.

(** [BufferWrite] of a read-write transaction: the mutations are appended
    to its buffer while it is active. *)
Definition BufferWrite (active : bool) (wb ms : list Mutation)
  : list Mutation * option Error :=
  if active then (wb ++ ms, None) else (wb, Some (External 0%nat)).

(** The loop of [storeSubtrees] over the subtrees, on the buffer of the
    asserted read-write transaction. *)
Fixpoint storeEach (treeID writeRev : Z) (sts : list (option SubtreeProto))
  (active : bool) (wb : list Mutation) : list Mutation * option Error :=
  match sts with
  | [] => (wb, None)
  | None :: sts' => storeEach treeID writeRev sts' active wb
  | Some st :: sts' =>
      match Marshal st with
      | inr err => (wb, Some err)
      | inl stBytes =>
          let m := Insert subtreeTbl treeID (Prefix st) writeRev stBytes in
          match BufferWrite active wb [m] with
          | (wb', Some err) => (wb', Some err)
          | (wb', None) => storeEach treeID writeRev sts' active wb'
          end
      end
  end.

Definition storeSubtrees (sts : list (option SubtreeProto)) (t : treeTX C)
  : treeTX C * option Error :=
  match stx t with
  | Some (ReadWriteTransaction r active wb) =>
      let '(wb', err) := storeEach (treeID t) (_writeRev t) sts active wb in
      (set_stx t (Some (ReadWriteTransaction r active wb')), err)
  | _ => (t, Some ErrWrongTXType)
  end.

Definition flushSubtrees (t : treeTX C) : treeTX C * option Error :=
  let '(c, (t', err)) := Flush (cache t) storeSubtrees t in
  (set_cache t' c, err).

(** [Commit]; the deferred function sets [t.stx = nil] after the body. *)
Definition Commit (t : treeTX C) : treeTX C * option Error :=
  let '(t', err) :=
    match stx t with
    | None => (t, Some ErrTransactionClosed)
    | Some (ReadOnlyTransaction _) => (t, None)
    | Some (ReadWriteTransaction _ _ _) => flushSubtrees t
    | Some (OtherRead _) => (t, Some ErrUnknownTxType)
    end in
  (set_stx t' None, err).

Definition Rollback (t : treeTX C) : treeTX C * option Error :=
  let err := match stx t with
             | None => Some ErrTransactionClosed
             | Some _ => None
             end in
  (set_stx t None, err).

Definition IsOpen (t : treeTX C) : bool := bool_decide (stx t <> None).

Definition Close (t : treeTX C) : treeTX C * option Error :=
  if IsOpen t then
    match Rollback t with
    | (t', Some err) =>
        if bool_decide (err <> ErrTransactionClosed) then (t', Some err) else (t', None)
    | (t', None) => (t', None)
    end
  else (t, None).

(** [getSubtree] retrieves the most recent subtree specified by [id] at (or
    below) the requested revision. *)
Definition getSubtree (t : treeTX C) (rev : Z) (id : NodeID)
  : Run (option SubtreeProto * option Error) :=
  '(stID, err) ← subtreeKey id;
  match err with
  | Some e => Returns (None, Some e)
  | None =>
      match stx t with
      | None => Panics NilDereference
      | Some s =>
          let rows := Read (reader s) (treeID t) stID in
          let '(ret, err) := Do rows (readSubtree stID rev) None in
          let err := if bool_decide (err = Some errFinished) then None else err in
          Returns (ret, err)
      end
  end.

End TreeTX.

(** ** Parallel subtree fetch *)

(** The goroutines of the miss handler run concurrently with its collecting
    loop.  A schedule resolves the interleaving: for every iteration of the
    loop, which of the still running goroutines complete before the [select]
    (by position among the running ones, in completion order), and which
    ready case the [select] takes when both channels hold a message. *)
Record SchedStep := mkStep {
  arrivals : list nat;
  pickErr : bool;
}.

Definition Schedule := list SchedStep.

(** The goroutines still running, each with the outcome of its [getSubtree]
    call, and the two buffered channels. *)
Record Fetch := mkFetch {
  running : list (Run (option SubtreeProto * option Error));
  c : list (option SubtreeProto);
  errc : list Error;
}.

(** The [j]-th running goroutine completes: it sends on [errc] or on [c].  A
    panic in a goroutine ends the program; a goroutine that blocks never
    sends. *)
Definition finish (j : nat) (s : Fetch) : Run Fetch :=
  match running s !! j with
  | None => Returns s
  | Some (Returns (_, Some err)) =>
      Returns (mkFetch (delete j (running s)) (c s) (errc s ++ [err]))
  | Some (Returns (st, None)) =>
      Returns (mkFetch (delete j (running s)) (c s ++ [st]) (errc s))
  | Some (Panics p) => Panics p
  | Some Blocks => Returns (mkFetch (delete j (running s)) (c s) (errc s))
  end.

Fixpoint arrive (js : list nat) (s : Fetch) : Run Fetch :=
  match js with
  | [] => Returns s
  | j :: js' => s' ← finish j s; arrive js' s'
  end.

Definition idle (s : Fetch) : bool :=
  match c s, errc s with
  | [], [] => true
  | _, _ => false
  end.

(** A [select] on two empty channels waits for the next goroutine to send;
    with no goroutine left it waits forever. *)
Fixpoint await (n : nat) (s : Fetch) : Run Fetch :=
  if idle s then
    match n with
    | O => Blocks
    | S n' => s' ← finish 0 s; await n' s'
    end
  else Returns s.

(** The collecting loop [for range ids { select {...} }]. *)
Fixpoint collect (todo : nat) (sched : Schedule) (s : Fetch) (ret : list SubtreeProto)
  : Run (Fetch * (option (list SubtreeProto) * option Error)) :=
  match todo with
  | O => Returns (s, (Some ret, None))
  | S todo' =>
      let step := default (mkStep [] true) (head sched) in
      s1 ← arrive (arrivals step) s;
      s2 ← await (length (running s1)) s1;
      let recv st c' :=
        collect todo' (tail sched) (mkFetch (running s2) c' (errc s2))
                (ret ++ option_list st) in
      match errc s2, c s2 with
      | [], [] => Blocks
      | err :: _, [] => Returns (s2, (None, Some err))
      | [], st :: c' => recv st c'
      | err :: _, st :: c' =>
          if pickErr step then Returns (s2, (None, Some err)) else recv st c'
      end
  end.

Section TreeNodes.
Context {C : Type} `{SubtreeCache C}.

(** The goroutines the miss handler of [GetMerkleNodes] spawns. *)
Definition spawn (t : treeTX C) (rev : Z) (ids : list NodeID) : Fetch :=
  mkFetch (map (getSubtree t rev) ids) [] [].

(** The miss handler passed to [GetNodes]. *)
Definition fetchSubtrees (sched : Schedule) (t : treeTX C) (rev : Z)
  : GetSubtreesFunc :=
  fun ids =>
    r ← collect (length ids) sched (spawn t rev ids) [];
    Returns (snd r).

(** [GetMerkleNodes] returns the requested set of nodes at, or before, the
    specified tree revision.  [oracle] gives the schedule of each batch. *)
Definition GetMerkleNodes (oracle : list NodeID -> Schedule) (t : treeTX C)
  (rev : Z) (ids : list NodeID)
  : Run (treeTX C * (option (list Node) * option Error)) :=
  match stx t with
  | None => Returns (t, (None, Some ErrTransactionClosed))
  | Some _ =>
      '(c', res) ← GetNodes (cache t) ids
                     (fun batch => fetchSubtrees (oracle batch) t rev batch);
      Returns (set_cache t c', res)
  end.

(** The loop of [SetMerkleNodes] over the nodes, with the loader it passes
    to the cache. *)
Fixpoint setEach (load : GetSubtreeFunc) (nodes : list Node) (c : C)
  : Run (C * option Error) :=
  match nodes with
  | [] => Returns (c, None)
  | n :: nodes' =>
      '(c', err) ← SetNodeHash c (nodeID n) (Hash n) load;
      match err with
      | Some e => Returns (c', Some e)
      | None => setEach load nodes' c'
      end
  end.

(** [SetMerkleNodes] stores the provided merkle nodes at the writeRevision of
    the transaction. *)
Definition SetMerkleNodes (t : treeTX C) (nodes : list Node)
  : Run (treeTX C * option Error) :=
  match stx t with
  | None => Returns (t, Some ErrTransactionClosed)
  | Some _ =>
      '(t1, (writeRev, err)) ← writeRev t;
      match err with
      | Some e => Returns (t1, Some e)
      | None =>
          '(c', err) ← setEach (fun nID => getSubtree t1 (sub64 writeRev 1) nID)
                         nodes (cache t1);
          Returns (set_cache t1 c', err)
      end
  end.

End TreeNodes.

(** ** A minimal subtree cache *)

(** Modelled from the spec: the Subtree Cache ([storage/cache], not among the
    sources), "in-memory mapping from node-id to subtree, with dirty
    tracking; exposes GetNodes, SetNodeHash, Flush".  It keeps the loaded
    subtrees by prefix with a dirty flag, loads a missing subtree through
    the function it is given, and on [Flush] hands the dirty subtrees to the
    writer.  It serves as a concrete instance of [SubtreeCache]. *)
Definition MapCache := list (list byte * (SubtreeProto * bool)).

Definition ownerID (id : NodeID) : NodeID :=
  mkNodeID (Path id) (8 * Z.quot (PrefixLenBits id) 8).

Definition ownerKey (id : NodeID) : list byte := prefix_bytes (ownerID id).

Definition suffix (id : NodeID) : string :=
  String.string_of_list_byte (drop (length (ownerKey id)) (elems (Path id))).

Fixpoint find_subtree (k : list byte) (m : MapCache) : option SubtreeProto :=
  match m with
  | [] => None
  | (k', (st, _)) :: m' => if bool_decide (k = k') then Some st else find_subtree k m'
  end.

Fixpoint put_subtree (k : list byte) (st : SubtreeProto) (d : bool) (m : MapCache)
  : MapCache :=
  match m with
  | [] => [(k, (st, d))]
  | (k', e) :: m' =>
      if bool_decide (k = k') then (k, (st, d)) :: m' else (k', e) :: put_subtree k st d m'
  end.

Definition with_leaf (st : SubtreeProto) (sfx : string) (hash : list byte)
  : SubtreeProto :=
  mkSubtreeProto (Prefix st) (Depth st) (RootHash st) (<[sfx := hash]> (Leaves st))
                 (InternalNodes st).

Definition empty_subtree (k : list byte) : SubtreeProto :=
  mkSubtreeProto (Some k) 8 [] ∅ ∅.

Definition map_SetNodeHash (m : MapCache) (id : NodeID) (hash : list byte)
  (load : GetSubtreeFunc) : Run (MapCache * option Error) :=
  match find_subtree (ownerKey id) m with
  | Some st => Returns (put_subtree (ownerKey id) (with_leaf st (suffix id) hash) true m, None)
  | None =>
      '(st, err) ← load (ownerID id);
      match err with
      | Some e => Returns (m, Some e)
      | None =>
          let st0 := default (empty_subtree (ownerKey id)) st in
          Returns (put_subtree (ownerKey id) (with_leaf st0 (suffix id) hash) true m, None)
      end
  end.

Definition missing (m : MapCache) (ids : list NodeID) : list NodeID :=
  map ownerID (filter (fun id => find_subtree (ownerKey id) m = None) ids).

Definition merge (m : MapCache) (sts : list SubtreeProto) : MapCache :=
  foldl (fun m st => put_subtree (default [] (Prefix st)) st false m) m sts.

Definition node_of (m : MapCache) (id : NodeID) : option Node :=
  st ← find_subtree (ownerKey id) m;
  hash ← Leaves st !! suffix id;
  Some (mkNode id hash 0).

Definition map_GetNodes (m : MapCache) (ids : list NodeID) (getSubtrees : GetSubtreesFunc)
  : Run (MapCache * (option (list Node) * option Error)) :=
  match missing m ids with
  | [] => Returns (m, (Some (omap (node_of m) ids), None))
  | want =>
      '(sts, err) ← getSubtrees want;
      match err with
      | Some e => Returns (m, (None, Some e))
      | None =>
          let m' := merge m (default [] sts) in
          Returns (m', (Some (omap (node_of m') ids), None))
      end
  end.

Definition dirty (m : MapCache) : list (option SubtreeProto) :=
  omap (fun e : list byte * (SubtreeProto * bool) =>
          if snd (snd e) then Some (Some (fst (snd e))) else None) m.

Definition map_Flush {W : Type} (m : MapCache) (setSubtrees : SetSubtreesFunc W) (w : W)
  : MapCache * (W * option Error) :=
  match setSubtrees (dirty m) w with
  | (w', Some e) => (m, (w', Some e))
  | (w', None) =>
      (map (fun e : list byte * (SubtreeProto * bool) => (fst e, (fst (snd e), false))) m,
       (w', None))
  end.

#[global] Instance MapCache_SubtreeCache : SubtreeCache MapCache := {
  GetNodes := map_GetNodes;
  SetNodeHash := map_SetNodeHash;
  Flush := @map_Flush;
}.

(** ** Sequences of closing calls *)

Inductive Op : Type := OpCommit | OpRollback | OpClose.

Section Closing.
Context {C : Type} `{SubtreeCache C}.

Definition run_op (o : Op) (t : treeTX C) : treeTX C * option Error :=
  match o with
  | OpCommit => Commit t
  | OpRollback => Rollback t
  | OpClose => Close t
  end.

(** The calls of [ops] made one after the other, each with what it
    returned and whether the transaction was open afterwards. *)
Fixpoint run_ops (ops : list Op) (t : treeTX C) : list (Op * option Error * bool) :=
  match ops with
  | [] => []
  | o :: ops' =>
      let '(t', err) := run_op o t in
      (o, err, IsOpen t') :: run_ops ops' t'
  end.

(** What a call on a closed transaction has to return. *)
Definition closed_outcome (r : Op * option Error * bool) : Prop :=
  match r with
  | (OpClose, err, open) => err = None /\ open = false
  | (_, err, open) => err = Some ErrTransactionClosed /\ open = false
  end.

End Closing.

(** ** Reads of stored subtrees *)

(** The row of a stored subtree at a revision. *)
Definition stored (e : Z * SubtreeProto) : SubtreeRow := Row (fst e) (Encoded (snd e)).

(** The rows of a key decode and carry the key as their prefix, as
    [storeSubtrees] writes them. *)
Definition keyed (key : list byte) (entries : list (Z * SubtreeProto)) : Prop :=
  Forall (fun e => default [] (Prefix (snd e)) = key) entries.

(** The read delivers the rows newest first. *)
Definition newest_first (entries : list (Z * SubtreeProto)) : Prop :=
  StronglySorted Z.gt (map fst entries).

(** [(rev, st)] is the entry with the highest revision not above [R]. *)
Definition highest_upto (R : Z) (entries : list (Z * SubtreeProto))
  (rev : Z) (st : SubtreeProto) : Prop :=
  In (rev, st) entries /\ rev <= R /\
  forall rev' st', In (rev', st') entries -> rev' <= R -> rev' <= rev.

(** The cache, asked for [ids], hands [batch] to its miss handler and
    returns the handler's error with no nodes. *)
Definition relays_miss_error {C : Type} `{SubtreeCache C} (c : C)
  (ids batch : list NodeID) : Prop :=
  forall (h : GetSubtreesFunc) (e : Error),
    h batch = Returns (None, Some e) ->
    exists c', GetNodes c ids h = Returns (c', (None, Some e)).

(** ** Outcomes of the spawned fetches *)

Abbreviation FetchResult := (Run (option SubtreeProto * option Error)).

(** The fetch returns a subtree (or nil) and no error: its goroutine sends
    on [c]. *)
Definition succeeds (r : FetchResult) : bool :=
  match r with
  | Returns (_, None) => true
  | _ => false
  end.

Fixpoint successes (l : list FetchResult) : nat :=
  match l with
  | [] => 0%nat
  | r :: l' => ((if succeeds r then 1 else 0) + successes l')%nat
  end.

(** The fetch returns the error [e]: its goroutine sends [e] on [errc]. *)
Definition sends_error (r : FetchResult) (e : Error) : Prop :=
  exists st, r = Returns (st, Some e).

(** The fetch returns (it neither panics nor blocks). *)
Definition completes (r : FetchResult) : Prop := exists v, r = Returns v.

(** An error is in [errc] or a running goroutine is going to send one. *)
Definition error_pending (s : Fetch) : Prop :=
  errc s <> [] \/ exists r e, In r (running s) /\ sends_error r e.

(** [e] is in [errc] or is the error of a running goroutine. *)
Definition error_of (s : Fetch) (e : Error) : Prop :=
  In e (errc s) \/ exists r, In r (running s) /\ sends_error r e.

(** How a state relates to an earlier one of the same call: the goroutines
    still running were running, the successes to receive are as many, the
    error channel has grown at its end by errors of goroutines, and an error
    that was pending still is. *)
Record evolves (s s' : Fetch) : Prop := mkEvolves {
  ev_running : forall r, In r (running s') -> In r (running s);
  ev_successes :
    (length (c s') + successes (running s') = length (c s) + successes (running s))%nat;
  ev_errc : exists es, errc s' = errc s ++ es /\ Forall (error_of s) es;
  ev_pending : error_pending s -> error_pending s';
  ev_shrinks : (length (running s') <= length (running s))%nat;
}.

(** ** Sample values *)

Definition id_0a0b : NodeID := mkNodeID (mkSlice [x0a; x0b; x0c] []) 16.
Definition id_0a0b' : NodeID := mkNodeID (mkSlice [x0a; x0b; xff] []) 16.
Definition id_13bits : NodeID := mkNodeID (mkSlice [x0a; x0b; x0c] []) 13.

(** A one-byte path in a two-byte backing array, as [make([]byte, 1, 2)]
    gives, and one with no room to spare. *)
Definition id_spare : NodeID := mkNodeID (mkSlice [x01] [x02]) 16.
Definition id_short : NodeID := mkNodeID (mkSlice [x01] []) 16.
Definition id_negative : NodeID := mkNodeID (mkSlice [x01] []) (-8).

(** A tree (id 1) with one subtree key [0a 0b]: the reader delivers the given
    tree heads and the given rows of that key. *)
Definition key_0a0b : list byte := [x0a; x0b].

Definition sample_reader (heads : list TreeHeadRow) (rows : list SubtreeRow) : Reader :=
  mkReader
    (fun tid => if tid =? 1 then mkRows heads None else mkRows [] None)
    (fun tid key =>
       if (tid =? 1) && bool_decide (key = key_0a0b) then mkRows rows None
       else mkRows [] None).

Definition head_rev4 : TreeHeadRow :=
  HeadRow 1 1000 7 [x11] (Encoded [x51]) 4 (Encoded [x52]).

(** The subtree of key [0a 0b] with root hash [h]. *)
Definition st_hash (h : byte) : SubtreeProto :=
  mkSubtreeProto (Some key_0a0b) 8 [h] ∅ ∅.

Definition entries_newest_first : list (Z * SubtreeProto) :=
  [(9, st_hash x09); (5, st_hash x05); (3, st_hash x03)].

(** A transaction as [begin] leaves it, with an empty cache. *)
Definition fresh (s : spanRead) : treeTX MapCache :=
  mkTreeTX 1 (Some s) None None 0 [] false.

Definition reader_newest_first : Reader :=
  sample_reader [head_rev4] (map stored entries_newest_first).

Definition scope_rw : spanRead := ReadWriteTransaction reader_newest_first true [].
Definition scope_ro : spanRead := ReadOnlyTransaction reader_newest_first.

Definition scope_no_head : spanRead := ReadOnlyTransaction (sample_reader [] []).

Definition tx_rw : treeTX MapCache := fresh scope_rw.
Definition tx_ro : treeTX MapCache := fresh scope_ro.
Definition tx_no_head : treeTX MapCache := fresh scope_no_head.

(** A byte-aligned id of the tree whose key was never written. *)
Definition id_0c : NodeID := mkNodeID (mkSlice [x0c; x0d] []) 8.

(** A reader whose read of every key other than [0a 0b] delivers a row that
    does not decode. *)
Definition failing_reader : Reader :=
  mkReader
    (fun tid => mkRows [head_rev4] None)
    (fun tid key =>
       if bool_decide (key = key_0a0b) then mkRows (map stored entries_newest_first) None
       else mkRows [BadRow 7%nat] None).

Definition scope_failing : spanRead := ReadWriteTransaction failing_reader true [].
Definition tx_failing : treeTX MapCache := fresh scope_failing.

(** Three nodes in two subtrees: two below [0a 0b], one below [0c]. *)
Definition nid_a : NodeID := mkNodeID (mkSlice [x0a; x0b; x0c] []) 20.
Definition nid_b : NodeID := mkNodeID (mkSlice [x0a; x0b; xf0] []) 20.
Definition nid_c : NodeID := mkNodeID (mkSlice [x0c; x0d] []) 12.

Definition three_ids : list NodeID := [nid_a; nid_b; nid_c].
Definition three_owners : list NodeID := [ownerID nid_a; ownerID nid_b; ownerID nid_c].

(** The failing fetch completes first, then the first one; the [select]
    takes the subtree while both channels are ready. *)
Definition sample_oracle : list NodeID -> Schedule :=
  fun _ => [mkStep [2%nat; 0%nat] false; mkStep [] false].

Definition node_a : Node := mkNode nid_a [x77] 0.
Definition node_b : Node := mkNode nid_b [x78] 0.
Definition node_c : Node := mkNode nid_c [x79] 0.

(** The subtree of key [0a 0b] as stored at revision 3, with the hash of
    [node_a] recorded. *)
Definition st_with_node_a : SubtreeProto :=
  with_leaf (st_hash x03) (suffix nid_a) [x77].

Definition cache_with_node_a : MapCache := [(key_0a0b, (st_with_node_a, true))].

(** [tx_failing] after the resolution of its tree head. *)
Definition tx_failing_resolved : treeTX MapCache :=
  mkTreeTX 1 (Some scope_failing)
           (Some (mkTreeHead 1 1000 7 [x11] (Some [x51]) 4 (Some [x52]))) None 5 [] true.

(** Closed arithmetic and equality facts about sample values. *)
Ltac ground :=
  vm_compute; repeat split; try reflexivity; try discriminate;
  try (intros ?; discriminate);
  try (intros [? ?]; first [ discriminate | tauto | congruence ]).

(** ** Snapshot transactions *)

Module Snapshot.

(** [snapshotTX], by the field its methods use. *)
Record snapshotTX := mkSnapshotTX {
  stx : option spanRead;
}.

Definition Close (t : snapshotTX) : snapshotTX * option Error :=
  match stx t with
  | None => (t, Some ErrTransactionClosed)
  | Some _ => (mkSnapshotTX None, None)
  end.

Definition Commit (t : snapshotTX) : snapshotTX * option Error := Close t.

Definition Rollback (t : snapshotTX) : snapshotTX * option Error := Close t.

Definition run_op (o : Op) (t : snapshotTX) : snapshotTX * option Error :=
  match o with
  | OpCommit => Commit t
  | OpRollback => Rollback t
  | OpClose => Close t
  end.

(** The errors of the calls of [ops], made one after the other. *)
Fixpoint run_ops (ops : list Op) (t : snapshotTX) : list (option Error) :=
  match ops with
  | [] => []
  | o :: ops' => let '(t', err) := run_op o t in err :: run_ops ops' t'
  end.

End Snapshot.

(** [checkDatabaseAccessible], on the iterator of its [SELECT 1] query. *)
Definition checkDatabaseAccessible {R} (rows : RowIterator R) : option Error :=
  snd (Do rows (fun (_ : R) (u : unit) => (u, None)) tt).

(** ** Written and read rows *)

(** The mutation [storeSubtrees] buffers for a subtree. *)
Definition asInsert (treeID writeRev : Z) (st : SubtreeProto) : Mutation :=
  Insert subtreeTbl treeID (Prefix st) writeRev (Encoded st).

(** The row that a read of the columns [Revision], [Subtree] delivers for
    an inserted record. *)
Definition row_of (m : Mutation) : SubtreeRow := Row (mRevision m) (mSubtree m).

(** The rows decode and are of revisions above [R]. *)
Definition all_newer (R : Z) (rows : list SubtreeRow) : Prop :=
  Forall (fun r => exists rev st, r = Row rev (Encoded st) /\ R < rev) rows.

(** ** Fetches that all succeed *)

(** The subtree a successful fetch sends on [c], if it is not nil. *)
Definition subtree_of (r : FetchResult) : list SubtreeProto :=
  match r with
  | Returns (st, None) => option_list st
  | _ => []
  end.

Definition subtrees_of (l : list FetchResult) : list SubtreeProto := l ≫= subtree_of.

Definition all_succeed (l : list FetchResult) : Prop :=
  Forall (fun r => succeeds r = true) l.

(** The subtrees still to be collected: in the channel, or to be sent. *)
Definition to_collect (s : Fetch) : list SubtreeProto :=
  (c s ≫= option_list) ++ subtrees_of (running s).

(** A row of the [TreeHeads] query on which [r.Columns] and both
    [proto.Unmarshal] calls succeed. *)
Definition head_decodes (r : TreeHeadRow) : Prop :=
  exists treeId tsNanos treeSize rootHash sig rev meta,
    r = HeadRow treeId tsNanos treeSize rootHash (Encoded sig) rev (Encoded meta).

Definition head_rev9 : TreeHeadRow :=
  HeadRow 1 2000 9 [x12] (Encoded [x53]) 9 (Encoded [x54]).

Definition head_bad_sig : TreeHeadRow :=
  HeadRow 1 3000 9 [x13] (Malformed 3%nat) 10 (Encoded [x55]).

(** A reader with another tree head, and a snapshot transaction. *)
Definition scope_rev9 : spanRead := ReadOnlyTransaction (sample_reader [head_rev9] []).

Definition snapshot_open : Snapshot.snapshotTX := Snapshot.mkSnapshotTX (Some scope_ro).

(** The root subtree (empty key) with a nil prefix, and readers that deliver
    a written row, a row of another subtree, and a row that does not decode
    ahead of an older one. *)
Definition st_root : SubtreeProto := mkSubtreeProto None 8 [x44] ∅ ∅.
Definition id_root : NodeID := mkNodeID (mkSlice [x0a; x0b] []) 0.

Definition reader_rows (rows : list SubtreeRow) (fail : option ExtErr) : Reader :=
  mkReader (fun _ => mkRows [head_rev4] None) (fun _ _ => mkRows rows fail).

Definition tx_rows (rows : list SubtreeRow) (fail : option ExtErr) : treeTX MapCache :=
  fresh (ReadOnlyTransaction (reader_rows rows fail)).

Definition st_other : SubtreeProto := mkSubtreeProto (Some [x0a; x0c]) 8 [x45] ∅ ∅.

Definition rows_written_root : list SubtreeRow :=
  [stored (9, st_root); row_of (asInsert 1 5 st_root)].

Definition rows_mismatch : list SubtreeRow :=
  [stored (9, st_root); Row 5 (Encoded st_other)].

Definition rows_malformed : list SubtreeRow :=
  [stored (9, st_root); Row 8 (Malformed 2%nat); stored (3, st_root)].

Definition scope_two_rows : spanRead :=
  ReadOnlyTransaction
    (sample_reader [head_rev4] [stored (9, st_hash x09); stored (5, st_hash x05)]).

(** Two ids of the written subtree and one of a subtree never written. *)
Definition found_batch : list NodeID := [ownerID nid_a; id_0c; ownerID nid_b].

(** [tx_ro] after [SetMerkleNodes] has recorded [node_a]. *)
Definition tx_ro_with_node_a : treeTX MapCache :=
  mkTreeTX 1 (Some scope_ro)
           (Some (mkTreeHead 1 1000 7 [x11] (Some [x51]) 4 (Some [x52]))) None 5
           cache_with_node_a true.

(** ** Hashes held by the minimal cache *)

(** The first entry of a key, the one [find_subtree] reads and [put_subtree]
    replaces, with its dirty flag. *)
Fixpoint first_entry (k : list byte) (m : MapCache) : option (SubtreeProto * bool) :=
  match m with
  | [] => None
  | (k', e) :: m' => if bool_decide (k = k') then Some e else first_entry k m'
  end.

(** The cache holds, in a dirty subtree, the hash [h] for the leaf [sfx] of
    the subtree [k]. *)
Definition holds_hash (m : MapCache) (k : list byte) (sfx : string) (h : list byte)
  : Prop :=
  exists st, first_entry k m = Some (st, true) /\ Leaves st !! sfx = Some h.

(** The leaf a node's hash is recorded at: owning subtree and suffix. *)
Definition address (n : Node) : list byte * string :=
  (ownerKey (nodeID n), suffix (nodeID n)).

(** The hash that a list of nodes gives for the leaf [sfx] of the subtree
    [k]: that of the last node at this address. *)
Fixpoint recorded (nodes : list Node) (k : list byte) (sfx : string)
  : option (list byte) :=
  match nodes with
  | [] => None
  | n :: nodes' =>
      match recorded nodes' k sfx with
      | Some h => Some h
      | None => if bool_decide (address n = (k, sfx)) then Some (Hash n) else None
      end
  end.

(** * Properties *)

(** ** The subtree key *)

Lemma slice_to_in_range (s : Slice) (high : Z) :
  0 <= high <= cap s ->
  slice_to s high = Returns (take (Z.to_nat high) (elems s ++ spare s)).
Proof.
  intros Hr. unfold slice_to. rewrite bool_decide_eq_true_2; [reflexivity | exact Hr].
Qed.

Lemma slice_to_out_of_range (s : Slice) (high : Z) :
  ~ (0 <= high <= cap s) ->
  slice_to s high = Panics (SliceBoundsOutOfRange high (cap s)).
Proof.
  intros Hr. unfold slice_to. rewrite bool_decide_eq_false_2; [reflexivity | exact Hr].
Qed.

Lemma len_le_cap (s : Slice) : len s <= cap s.
Proof. unfold len, cap. rewrite length_app. lia. Qed.

Lemma subtreeKey_unaligned (id : NodeID) :
  ~ aligned id ->
  subtreeKey id = Returns ([], Some (ErrNotAligned (PrefixLenBits id))).
Proof.
  unfold aligned, subtreeKey. intros Hna.
  destruct (Z.eqb_spec (Z.rem (PrefixLenBits id) 8) 0) as [E | E]; [contradiction | reflexivity].
Qed.

Lemma subtreeKey_aligned (id : NodeID) :
  aligned id ->
  subtreeKey id =
    key ← slice_to (Path id) (Z.quot (PrefixLenBits id) 8); Returns (key, None).
Proof.
  unfold aligned, subtreeKey. intros Ha. rewrite Ha. reflexivity.
Qed.

Lemma quot8_nonneg (z : Z) : 0 <= z -> 0 <= Z.quot z 8.
Proof. intros Hz. apply Z.quot_pos; lia. Qed.

Lemma subtreeKey_in_path (id : NodeID) :
  aligned id -> in_path id -> subtreeKey id = Returns (prefix_bytes id, None).
Proof.
  intros Ha [H0 Hle]. rewrite subtreeKey_aligned by exact Ha.
  pose proof (quot8_nonneg _ H0) as Hq. pose proof (len_le_cap (Path id)) as Hc.
  rewrite slice_to_in_range by lia. cbn. unfold prefix_bytes.
  rewrite take_app_le; [reflexivity |]. unfold len in Hle. lia.
Qed.

Lemma prefix_bytes_length (id : NodeID) :
  in_path id -> Z.of_nat (length (prefix_bytes id)) = Z.quot (PrefixLenBits id) 8.
Proof.
  intros [H0 Hle]. pose proof (quot8_nonneg _ H0) as Hq.
  unfold prefix_bytes. rewrite length_take. unfold len in Hle. lia.
Qed.

Lemma aligned_quot (id : NodeID) :
  aligned id -> PrefixLenBits id = 8 * Z.quot (PrefixLenBits id) 8.
Proof.
  unfold aligned. intros Ha.
  pose proof (Z.quot_rem' (PrefixLenBits id) 8) as Hqr. lia.
Qed.

(** C4: on a byte-aligned NodeID whose prefix lies within its path,
    [subtreeKey] returns exactly the first [PrefixLenBits/8] path bytes and no
    error; two such NodeIDs with the same key have the same prefix (same
    length, same bytes), so distinct aligned prefixes get distinct keys; and
    on every NodeID with [PrefixLenBits % 8 != 0] it returns the alignment
    error. *)
Theorem subtreeKey_prefix_injective_aligned :
  (forall id, aligned id -> in_path id ->
     subtreeKey id = Returns (prefix_bytes id, None) /\
     Z.of_nat (length (prefix_bytes id)) = Z.quot (PrefixLenBits id) 8) /\
  (forall id id', aligned id -> in_path id -> aligned id' -> in_path id' ->
     subtreeKey id = subtreeKey id' ->
     PrefixLenBits id = PrefixLenBits id' /\ prefix_bytes id = prefix_bytes id') /\
  (forall id, ~ aligned id ->
     subtreeKey id = Returns ([], Some (ErrNotAligned (PrefixLenBits id)))).
Proof.
  split; [| split].
  - intros id Ha Hp. split; [apply subtreeKey_in_path | apply prefix_bytes_length]; assumption.
  - intros id id' Ha Hp Ha' Hp' Heq.
    rewrite !subtreeKey_in_path in Heq by assumption.
    injection Heq as Hk. split; [| exact Hk].
    rewrite (aligned_quot id Ha), (aligned_quot id' Ha').
    rewrite <- (prefix_bytes_length id Hp), <- (prefix_bytes_length id' Hp'), Hk.
    reflexivity.
  - apply subtreeKey_unaligned.
Qed.

Lemma subtreeKey_prefix_witness :
  (subtreeKey id_0a0b = Returns (prefix_bytes id_0a0b, None) /\
   Z.of_nat (length (prefix_bytes id_0a0b)) = Z.quot (PrefixLenBits id_0a0b) 8) /\
  (PrefixLenBits id_0a0b = PrefixLenBits id_0a0b' /\
   prefix_bytes id_0a0b = prefix_bytes id_0a0b') /\
  subtreeKey id_13bits = Returns ([], Some (ErrNotAligned 13)).
Proof.
  destruct subtreeKey_prefix_injective_aligned as [Hkey [Hinj Hun]].
  split; [| split].
  - apply (Hkey id_0a0b); ground.
  - apply (Hinj id_0a0b id_0a0b'); ground.
  - apply (Hun id_13bits). ground.
Defined.

(** C9, as stated, fails: a byte-aligned NodeID whose [PrefixLenBits]
    exceeds 8 times the length of its path, but not 8 times its capacity,
    does not panic; [subtreeKey] returns a key that reaches into the spare
    capacity. *)
Lemma subtreeKey_beyond_len_returns :
  ~ (forall id, aligned id -> 8 * len (Path id) < PrefixLenBits id ->
       exists p, subtreeKey id = Panics p).
Proof.
  intros Hclaim.
  destruct (Hclaim id_spare) as [p Hp]; [ground | ground |].
  discriminate Hp.
Qed.

(** C9 (amended): for a byte-aligned NodeID, [subtreeKey] returns (the first
    [PrefixLenBits/8] bytes of the backing array, no error) exactly when
    [0 <= PrefixLenBits <= 8 * cap(Path)]; when [PrefixLenBits] is negative or
    exceeds 8 times the capacity of the path slice, the slice expression is
    out of range and the call panics instead of returning an error value. *)
Theorem subtreeKey_total_within_capacity (id : NodeID) :
  aligned id ->
  (0 <= PrefixLenBits id <= 8 * cap (Path id) ->
     subtreeKey id =
       Returns (take (Z.to_nat (Z.quot (PrefixLenBits id) 8))
                     (elems (Path id) ++ spare (Path id)), None)) /\
  (~ (0 <= PrefixLenBits id <= 8 * cap (Path id)) ->
     subtreeKey id =
       Panics (SliceBoundsOutOfRange (Z.quot (PrefixLenBits id) 8) (cap (Path id)))).
Proof.
  intros Ha. pose proof (aligned_quot id Ha) as Hq.
  rewrite (subtreeKey_aligned id Ha). split; intros Hr.
  - rewrite slice_to_in_range by lia. reflexivity.
  - rewrite slice_to_out_of_range by lia. reflexivity.
Qed.

Lemma subtreeKey_total_within_capacity_witness :
  subtreeKey id_spare = Returns ([x01; x02], None) /\
  subtreeKey id_short = Panics (SliceBoundsOutOfRange 2 1) /\
  subtreeKey id_negative = Panics (SliceBoundsOutOfRange (-1) 1).
Proof.
  split; [| split].
  - apply (subtreeKey_total_within_capacity id_spare); ground.
  - apply (subtreeKey_total_within_capacity id_short); ground.
  - apply (subtreeKey_total_within_capacity id_negative); ground.
Defined.

(** ** Commit, Rollback, Close *)

Section ClosingFacts.
Context {C : Type} `{SubtreeCache C}.

Lemma IsOpen_closed (t : treeTX C) : stx t = None -> IsOpen t = false.
Proof. intros Hs. unfold IsOpen. rewrite Hs. reflexivity. Qed.

Lemma Commit_closes (t : treeTX C) : stx (fst (Commit t)) = None.
Proof.
  unfold Commit. destruct (stx t) as [[r | r a wb | r] |]; try reflexivity.
  unfold flushSubtrees. destruct (Flush (cache t) storeSubtrees t) as [c [t' err]].
  reflexivity.
Qed.

Lemma Rollback_closes (t : treeTX C) : stx (fst (Rollback t)) = None.
Proof. reflexivity. Qed.

Lemma Commit_closed (t : treeTX C) :
  stx t = None -> Commit t = (set_stx t None, Some ErrTransactionClosed).
Proof. intros Hs. unfold Commit. rewrite Hs. reflexivity. Qed.

Lemma Rollback_closed (t : treeTX C) :
  stx t = None -> Rollback t = (set_stx t None, Some ErrTransactionClosed).
Proof. intros Hs. unfold Rollback. rewrite Hs. reflexivity. Qed.

Lemma Close_closed (t : treeTX C) : stx t = None -> Close t = (t, None).
Proof. intros Hs. unfold Close. rewrite (IsOpen_closed t Hs). reflexivity. Qed.

(** A closed transaction stays closed under every call, and each call
    returns what [closed_outcome] says. *)
Lemma run_op_closed (o : Op) (t : treeTX C) :
  stx t = None ->
  stx (fst (run_op o t)) = None /\
  closed_outcome (o, snd (run_op o t), IsOpen (fst (run_op o t))).
Proof.
  intros Hs. destruct o; cbn [run_op].
  - rewrite (Commit_closed t Hs). cbn. auto.
  - rewrite (Rollback_closed t Hs). cbn. auto.
  - rewrite (Close_closed t Hs). cbn. split; [exact Hs |]. split; [reflexivity |].
    apply IsOpen_closed, Hs.
Qed.

Lemma run_ops_closed (ops : list Op) (t : treeTX C) :
  stx t = None -> Forall closed_outcome (run_ops ops t).
Proof.
  revert t. induction ops as [| o ops IH]; intros t Hs; cbn [run_ops].
  - constructor.
  - destruct (run_op_closed o t Hs) as [Hs' Hout].
    destruct (run_op o t) as [t' err]. cbn in Hs', Hout.
    constructor; [exact Hout | apply IH, Hs'].
Qed.

(** C5: whatever the state of the transaction, after a first [Commit]
    (when [commit] is true) or [Rollback] the transaction is closed, and in
    every later sequence of calls, in any order, each [Commit] and each
    [Rollback] returns [ErrTransactionClosed], each [Close] returns nil, and
    the transaction is never open again. *)
Theorem closed_after_first_Commit_or_Rollback
  (t : treeTX C) (commit : bool) (ops : list Op) :
  let t1 := fst (if commit then Commit t else Rollback t) in
  IsOpen t1 = false /\
  snd (Commit t1) = Some ErrTransactionClosed /\
  snd (Rollback t1) = Some ErrTransactionClosed /\
  snd (Close t1) = None /\
  Forall closed_outcome (run_ops ops t1).
Proof.
  intros t1.
  assert (Hs : stx t1 = None).
  { subst t1. destruct commit; [apply Commit_closes | apply Rollback_closes]. }
  split; [apply IsOpen_closed, Hs |].
  rewrite (Commit_closed t1 Hs), (Rollback_closed t1 Hs), (Close_closed t1 Hs).
  repeat split. apply run_ops_closed, Hs.
Qed.

End ClosingFacts.

(** ** Revision resolution *)

Lemma add64_exact (a : Z) : - 2 ^ 63 <= a < 2 ^ 63 - 1 -> add64 a 1 = a + 1.
Proof.
  intros Ha. unfold add64, wrap64.
  rewrite Z.mod_small by lia. lia.
Qed.


Lemma latestSTH_cases (s : spanRead) (tid : Z) :
  (exists e, latestSTH (Some s) tid = Returns (None, Some e)) \/
  (exists th, latestSTH (Some s) tid = Returns (Some th, None)).
Proof.
  unfold latestSTH. destruct (Do (Query (reader s) tid) readHead None) as [[th |] [e |]];
    eauto.
Qed.

Lemma latestSTH_no_head (s : spanRead) (tid : Z) :
  Query (reader s) tid = mkRows [] None ->
  latestSTH (Some s) tid = Returns (None, Some ErrTreeNeedsInit).
Proof. intros Hq. unfold latestSTH. rewrite Hq. reflexivity. Qed.

Section Revisions.
Context {C : Type} `{SubtreeCache C}.

(** The transaction after its one resolution of the tree head. *)
Lemma getLatestRoot_memo (t : treeTX C) :
  getLatestRootOnce t = true -> getLatestRoot t = Returns (t, _currentSTHErr t).
Proof. intros Ho. unfold getLatestRoot. rewrite Ho. reflexivity. Qed.

Lemma getLatestRoot_first (t : treeTX C) (s : spanRead) :
  stx t = Some s -> getLatestRootOnce t = false ->
  (exists e,
     getLatestRoot t =
       Returns (mkTreeTX (treeID t) (stx t) None (Some e) (_writeRev t) (cache t) true,
                Some e) /\
     latestSTH (Some s) (treeID t) = Returns (None, Some e)) \/
  (exists th,
     getLatestRoot t =
       Returns (mkTreeTX (treeID t) (stx t) (Some th) None (add64 (TreeRevision th) 1)
                         (cache t) true, None)).
Proof.
  intros Hs Ho. unfold getLatestRoot. rewrite Ho, Hs.
  destruct (latestSTH_cases s (treeID t)) as [[e He] | [th Hth]].
  - left. exists e. rewrite He. split; reflexivity.
  - right. exists th. rewrite Hth. reflexivity.
Qed.

(** A transaction that [begin] returns is open and unresolved. *)
Lemma begin_fresh (getTreeAndConfig : option Error) (newCache : C + Error)
  (tid : Z) (s : spanRead) (t : treeTX C) (err : option Error) :
  begin getTreeAndConfig newCache tid s = (Some t, err) ->
  err = None /\ stx t = Some s /\ treeID t = tid /\ getLatestRootOnce t = false.
Proof.
  unfold begin. destruct getTreeAndConfig; [discriminate |].
  destruct newCache; [| discriminate]. intros Heq. injection Heq as <- <-. auto.
Qed.

(** C2: on an open transaction whose tree head has not been resolved yet,
    (1) if the resolution succeeds, the transaction holds a tree head [th]
    and its write revision is [th.TreeRevision + 1] in int64 arithmetic (the
    mathematical sum below the largest int64), and both accessors return
    accordingly, at the first and at every later access; (2) if the query
    finds no tree head, the resolution yields [ErrTreeNeedsInit], which
    [currentSTH] and [writeRev] return as their error and [ReadRevision] and
    [WriteRevision] raise, at the first and at every later access, so that no
    caller obtains a revision. *)
Theorem writeRev_follows_head_or_needs_init (t : treeTX C) (s : spanRead) :
  stx t = Some s -> getLatestRootOnce t = false ->
  (forall t', getLatestRoot t = Returns (t', None) ->
     exists th,
       _currentSTH t' = Some th /\
       _writeRev t' = add64 (TreeRevision th) 1 /\
       (- 2 ^ 63 <= TreeRevision th < 2 ^ 63 - 1 -> _writeRev t' = TreeRevision th + 1) /\
       (forall u, u = t \/ u = t' ->
          writeRev u = Returns (t', (add64 (TreeRevision th) 1, None)) /\
          WriteRevision u = Returns (t', add64 (TreeRevision th) 1) /\
          currentSTH u = Returns (t', (Some th, None)) /\
          ReadRevision u = Returns (t', TreeRevision th))) /\
  (Query (reader s) (treeID t) = mkRows [] None ->
     exists t',
       getLatestRoot t = Returns (t', Some ErrTreeNeedsInit) /\
       _currentSTH t' = None /\
       forall u, u = t \/ u = t' ->
         currentSTH u = Returns (t', (None, Some ErrTreeNeedsInit)) /\
         writeRev u = Returns (t', (-1, Some ErrTreeNeedsInit)) /\
         ReadRevision u = Panics (PanicError ErrTreeNeedsInit) /\
         WriteRevision u = Panics (PanicError ErrTreeNeedsInit)).
Proof.
  intros Hs Ho. split.
  - intros t' Hres.
    destruct (getLatestRoot_first t s Hs Ho) as [[e [He _]] | [th Hth]].
    + rewrite He in Hres. discriminate Hres.
    + rewrite Hth in Hres. injection Hres as <-. exists th. cbn.
      split; [reflexivity |]. split; [reflexivity |]. split; [apply add64_exact |].
      intros u [-> | ->].
      * unfold WriteRevision, ReadRevision, writeRev, currentSTH. rewrite Hth. cbn. auto.
      * unfold WriteRevision, ReadRevision, writeRev, currentSTH.
        rewrite getLatestRoot_memo by reflexivity. cbn. auto.
  - intros Hq. pose proof (latestSTH_no_head s (treeID t) Hq) as Hl.
    assert (Hg : getLatestRoot t =
                 Returns (mkTreeTX (treeID t) (stx t) None (Some ErrTreeNeedsInit)
                                   (_writeRev t) (cache t) true, Some ErrTreeNeedsInit)).
    { unfold getLatestRoot. rewrite Ho, Hs, Hl. reflexivity. }
    eexists. split; [exact Hg |]. split; [reflexivity |].
    intros u [-> | ->].
    + unfold WriteRevision, ReadRevision, writeRev, currentSTH. rewrite Hg. cbn. auto.
    + unfold WriteRevision, ReadRevision, writeRev, currentSTH.
      rewrite getLatestRoot_memo by reflexivity. cbn. auto.
Qed.

End Revisions.

Lemma writeRev_follows_head_witness :
  (exists t' th,
     getLatestRoot tx_rw = Returns (t', None) /\ _currentSTH t' = Some th /\
     TreeRevision th = 4 /\ _writeRev t' = 5 /\
     WriteRevision tx_rw = Returns (t', 5) /\ ReadRevision t' = Returns (t', 4)) /\
  ReadRevision tx_no_head = Panics (PanicError ErrTreeNeedsInit) /\
  WriteRevision tx_no_head = Panics (PanicError ErrTreeNeedsInit).
Proof.
  split.
  - destruct (writeRev_follows_head_or_needs_init tx_rw scope_rw eq_refl eq_refl) as [Hok _].
    destruct (Hok _ eq_refl) as [th [Hth [Hw [Hex Hacc]]]].
    injection Hth as <-.
    eexists _, _. split; [reflexivity |]. split; [reflexivity |]. split; [reflexivity |].
    split; [apply Hex; ground |].
    split; [apply (Hacc tx_rw); left; reflexivity | apply Hacc; right; reflexivity].
  - destruct (writeRev_follows_head_or_needs_init tx_no_head scope_no_head eq_refl eq_refl) as [_ Hno].
    destruct (Hno eq_refl) as [t' [_ [_ Hacc]]].
    split; apply (Hacc tx_no_head); left; reflexivity.
Defined.

(** ** Subtree reads *)

Lemma readSubtree_newer (key : list byte) (R rev : Z) (st : SubtreeProto)
  (ret : option SubtreeProto) :
  R < rev -> readSubtree key R (Row rev (Encoded st)) ret = (ret, None).
Proof.
  intros Hlt. unfold readSubtree. cbn.
  destruct (Z.gtb_spec rev R); [reflexivity | lia].
Qed.

Lemma readSubtree_hit (key : list byte) (R rev : Z) (st : SubtreeProto)
  (ret : option SubtreeProto) :
  rev <= R -> default [] (Prefix st) = key ->
  readSubtree key R (Row rev (Encoded st)) ret =
    (Some (emptyPrefix key st), Some errFinished).
Proof.
  intros Hle Hk. unfold readSubtree. cbn.
  destruct (Z.gtb_spec rev R); [lia |].
  unfold bytes_Equal. rewrite bool_decide_eq_true_2 by (symmetry; exact Hk).
  reflexivity.
Qed.

(** A row callback either leaves [ret] alone or sets it, from a row at or
    below the requested revision, and ends the read. *)
Lemma readSubtree_cases (key : list byte) (R : Z) (r : SubtreeRow)
  (ret : option SubtreeProto) :
  (exists e, readSubtree key R r ret = (ret, e) /\ e <> Some errFinished) \/
  (exists rev st,
     r = Row rev (Encoded st) /\ rev <= R /\ default [] (Prefix st) = key /\
     readSubtree key R r ret = (Some (emptyPrefix key st), Some errFinished)).
Proof.
  destruct r as [rev [st | e] | e].
  - destruct (Z.le_gt_cases rev R) as [Hle | Hgt].
    + destruct (decide (key = default [] (Prefix st))) as [Hk | Hk].
      * right. exists rev, st. repeat split; auto. apply readSubtree_hit; auto.
      * left. unfold readSubtree. cbn. destruct (Z.gtb_spec rev R); [lia |].
        unfold bytes_Equal. rewrite bool_decide_eq_false_2 by exact Hk. cbn.
        eexists. split; [reflexivity | discriminate].
    + left. rewrite readSubtree_newer by lia. eexists. split; [reflexivity | discriminate].
  - left. cbn. eexists. split; [reflexivity | discriminate].
  - left. cbn. eexists. split; [reflexivity | discriminate].
Qed.

Lemma forEachRow_sound (key : list byte) (R : Z) (rows : list SubtreeRow)
  (ret : option SubtreeProto) (e : option Error) :
  forEachRow (readSubtree key R) rows None = (ret, e) ->
  (ret = None /\ e <> Some errFinished) \/
  (exists rev st,
     In (Row rev (Encoded st)) rows /\ rev <= R /\ default [] (Prefix st) = key /\
     ret = Some (emptyPrefix key st) /\ e = Some errFinished).
Proof.
  induction rows as [| r rows IH]; cbn [forEachRow]; intros Hrun.
  - injection Hrun as <- <-. left. split; [reflexivity | discriminate].
  - destruct (readSubtree_cases key R r None) as [[e0 [He0 Hne]] | [rev [st [-> [Hle [Hk Hhit]]]]]].
    + rewrite He0 in Hrun. destruct e0 as [e0 |].
      * injection Hrun as <- <-. left. split; [reflexivity | exact Hne].
      * destruct (IH Hrun) as [Hnone | [rev [st [Hin Hrest]]]]; [left; exact Hnone |].
        right. exists rev, st. split; [right; exact Hin | exact Hrest].
    + rewrite Hhit in Hrun. injection Hrun as <- <-.
      right. exists rev, st. split; [left; reflexivity | auto].
Qed.

Lemma forEachRow_all_newer (key : list byte) (R : Z) (rows : list SubtreeRow) :
  Forall (fun r => exists rev st, r = Row rev (Encoded st) /\ R < rev) rows ->
  forEachRow (readSubtree key R) rows None = (None, None).
Proof.
  induction 1 as [| r rows [rev [st [-> Hlt]]] _ IH]; cbn [forEachRow].
  - reflexivity.
  - rewrite readSubtree_newer by exact Hlt. exact IH.
Qed.

Lemma newest_first_tail (e : Z * SubtreeProto) (entries : list (Z * SubtreeProto)) :
  newest_first (e :: entries) ->
  newest_first entries /\ forall rev st, In (rev, st) entries -> rev < fst e.
Proof.
  unfold newest_first. cbn [map]. intros Hs.
  apply StronglySorted_inv in Hs as [Hs Hall]. split; [exact Hs |].
  intros rev st Hin. rewrite Forall_forall in Hall.
  assert (Hgt : fst e > rev).
  { apply Hall. apply list_elem_of_In. apply (in_map fst _ (rev, st)) in Hin. exact Hin. }
  lia.
Qed.

Lemma forEachRow_newest_first (key : list byte) (R : Z)
  (entries : list (Z * SubtreeProto)) (rev : Z) (st : SubtreeProto) :
  keyed key entries -> newest_first entries -> highest_upto R entries rev st ->
  forEachRow (readSubtree key R) (map stored entries) None =
    (Some (emptyPrefix key st), Some errFinished).
Proof.
  induction entries as [| [r0 s0] entries IH]; intros Hk Hs [Hin [Hle Hmax]].
  - destruct Hin.
  - apply Forall_cons in Hk as [Hk0 Hk]. cbn in Hk0.
    apply newest_first_tail in Hs as [Hs Hlt]. cbn in Hlt.
    cbn [map forEachRow]. change (stored (r0, s0)) with (Row r0 (Encoded s0)).
    destruct (Z.le_gt_cases r0 R) as [Hr0 | Hr0].
    + rewrite readSubtree_hit by assumption.
      destruct Hin as [Heq | Hin].
      * injection Heq as -> ->. reflexivity.
      * specialize (Hlt rev st Hin). specialize (Hmax r0 s0 (or_introl eq_refl) Hr0). lia.
    + rewrite readSubtree_newer by lia.
      destruct Hin as [Heq | Hin]; [injection Heq as -> ->; lia |].
      apply IH; [exact Hk | exact Hs |].
      split; [exact Hin |]. split; [exact Hle |].
      intros rev' st' Hin' Hle'. apply (Hmax rev' st'); [right; exact Hin' | exact Hle'].
Qed.

Section SubtreeReads.
Context {C : Type} `{SubtreeCache C}.

Lemma getSubtree_read (t : treeTX C) (s : spanRead) (id : NodeID)
  (key : list byte) (R : Z) :
  stx t = Some s -> subtreeKey id = Returns (key, None) ->
  getSubtree t R id =
    (let '(ret, err) := Do (Read (reader s) (treeID t) key) (readSubtree key R) None in
     Returns (ret, if bool_decide (err = Some errFinished) then None else err)).
Proof.
  intros Hs Hkey. unfold getSubtree. rewrite Hkey. cbn. rewrite Hs. reflexivity.
Qed.

(** Whatever the read delivers, a subtree that [getSubtree] returns comes
    with no error and from a delivered row whose revision is at most the
    requested one. *)
Lemma getSubtree_never_newer (t : treeTX C) (s : spanRead) (id : NodeID)
  (key : list byte) (R : Z) (st' : SubtreeProto) (e : option Error) :
  stx t = Some s -> subtreeKey id = Returns (key, None) ->
  getSubtree t R id = Returns (Some st', e) ->
  e = None /\
  exists rev st,
    In (Row rev (Encoded st)) (delivered (Read (reader s) (treeID t) key)) /\
    rev <= R /\ default [] (Prefix st) = key /\ st' = emptyPrefix key st.
Proof.
  intros Hs Hkey Hget. rewrite (getSubtree_read t s id key R Hs Hkey) in Hget.
  unfold Do in Hget.
  destruct (forEachRow (readSubtree key R) (delivered (Read (reader s) (treeID t) key)) None)
    as [ret e0] eqn:Hrun.
  destruct (forEachRow_sound _ _ _ _ _ Hrun)
    as [[-> Hne] | [rev [st [Hin [Hle [Hk [-> ->]]]]]]].
  - destruct e0; cbn in Hget; discriminate Hget.
  - cbn in Hget. injection Hget as <- <-. split; [reflexivity |].
    exists rev, st. auto.
Qed.

End SubtreeReads.

Section SubtreeReadClaims.
Context {C : Type} `{SubtreeCache C}.

(** C6: when the read for the subtree's key delivers no row at or below the
    requested revision (no row at all for a subtree never written, or only
    rows of later revisions) and ends without a backend error,
    [getSubtree] returns nil and no error. *)
Theorem getSubtree_unwritten_is_nil (t : treeTX C) (s : spanRead) (id : NodeID)
  (key : list byte) (rows : list SubtreeRow) (R : Z) :
  stx t = Some s -> subtreeKey id = Returns (key, None) ->
  Read (reader s) (treeID t) key = mkRows rows None ->
  Forall (fun r => exists rev st, r = Row rev (Encoded st) /\ R < rev) rows ->
  getSubtree t R id = Returns (None, None).
Proof.
  intros Hs Hkey Hread Hnewer.
  rewrite (getSubtree_read t s id key R Hs Hkey), Hread. unfold Do. cbn [delivered failure].
  rewrite (forEachRow_all_newer key R rows Hnewer). reflexivity.
Qed.

(** C1: the prefix read of [SubtreeData] delivers the rows of a key in the
    order of the table's key, newest revision first; the table's declaration
    is not among the sources, and [getSubtree] relies on that order ("Too
    new, skip this row and wait for the next").  (1) Whatever the read
    delivers, a subtree that [getSubtree] returns at revision [R] comes
    without error from a delivered row of stored revision [<= R], never from
    a newer one.  (2) When the read delivers the stored rows of the key, as
    [storeSubtrees] writes them, newest first, a read at [R] returns the
    subtree of the highest stored revision [<= R]. *)
Theorem getSubtree_highest_when_newest_first (t : treeTX C) (s : spanRead)
  (id : NodeID) (key : list byte) (R : Z) :
  stx t = Some s -> subtreeKey id = Returns (key, None) ->
  (forall st' e, getSubtree t R id = Returns (Some st', e) ->
     e = None /\
     exists rev st,
       In (Row rev (Encoded st)) (delivered (Read (reader s) (treeID t) key)) /\
       rev <= R /\ st' = emptyPrefix key st) /\
  (forall entries fail,
     Read (reader s) (treeID t) key = mkRows (map stored entries) fail ->
     keyed key entries -> newest_first entries ->
     forall rev st, highest_upto R entries rev st ->
       getSubtree t R id = Returns (Some (emptyPrefix key st), None)).
Proof.
  intros Hs Hkey. split.
  - intros st' e Hget.
    destruct (getSubtree_never_newer t s id key R st' e Hs Hkey Hget)
      as [He [rev [st [Hin [Hle [_ Hst]]]]]].
    split; [exact He |]. exists rev, st. auto.
  - intros entries fail Hread Hk Hsorted rev st Hhi.
    rewrite (getSubtree_read t s id key R Hs Hkey), Hread. unfold Do. cbn [delivered].
    rewrite (forEachRow_newest_first key R entries rev st Hk Hsorted Hhi). reflexivity.
Qed.

End SubtreeReadClaims.

Lemma getSubtree_unwritten_witness :
  getSubtree tx_ro 2 id_0a0b = Returns (None, None) /\
  getSubtree tx_ro 7 id_0c = Returns (None, None).
Proof.
  split.
  - apply (getSubtree_unwritten_is_nil tx_ro scope_ro id_0a0b key_0a0b
             (map stored entries_newest_first) 2); try reflexivity.
    cbn [map entries_newest_first].
    repeat (constructor; [eexists _, _; split; [reflexivity | cbn; lia] |]). constructor.
  - apply (getSubtree_unwritten_is_nil tx_ro scope_ro id_0c [x0c] [] 7); try reflexivity.
    constructor.
Defined.

Lemma highest_upto_7_newest_first :
  highest_upto 7 entries_newest_first 5 (st_hash x05).
Proof.
  split; [right; left; reflexivity |]. split; [lia |].
  intros rev' st' [Heq | [Heq | [Heq | []]]] Hle; injection Heq as <- <-; lia.
Defined.

Lemma keyed_newest_first : keyed key_0a0b entries_newest_first.
Proof. repeat constructor. Defined.

Lemma newest_first_sample : newest_first entries_newest_first.
Proof. unfold newest_first. cbn. repeat constructor. Defined.

Lemma getSubtree_highest_witness :
  getSubtree tx_ro 7 id_0a0b = Returns (Some (st_hash x05), None) /\
  exists rev st,
    In (Row rev (Encoded st)) (map stored entries_newest_first) /\ rev <= 7 /\
    st_hash x05 = emptyPrefix key_0a0b st.
Proof.
  destruct (getSubtree_highest_when_newest_first tx_ro scope_ro id_0a0b key_0a0b 7
              eq_refl eq_refl) as [Hnever Hhi].
  split.
  - exact (Hhi entries_newest_first None eq_refl keyed_newest_first newest_first_sample
               5 (st_hash x05) highest_upto_7_newest_first).
  - destruct (Hnever (st_hash x05) None eq_refl) as [_ Hrow]. exact Hrow.
Defined.

(** ** Parallel fetch: the first error wins *)

Lemma successes_app (l1 l2 : list FetchResult) :
  successes (l1 ++ l2) = (successes l1 + successes l2)%nat.
Proof. induction l1 as [| r l1 IH]; cbn; [reflexivity | rewrite IH; lia]. Qed.

Lemma lookup_delete_split {A} (l : list A) (j : nat) (x : A) :
  l !! j = Some x -> exists l1 l2, l = l1 ++ x :: l2 /\ delete j l = l1 ++ l2.
Proof.
  intros Hj. exists (take j l), (drop (S j) l). split.
  - symmetry. apply take_drop_middle, Hj.
  - apply delete_take_drop.
Qed.

Lemma evolves_refl (s : Fetch) : evolves s s.
Proof.
  constructor; auto. exists []. split; [symmetry; apply app_nil_r | constructor].
Qed.

Lemma error_of_evolves (s s' : Fetch) (e : Error) :
  evolves s s' -> error_of s' e -> error_of s e.
Proof.
  intros Hev [Hin | [r [Hr Hs]]].
  - destruct (ev_errc _ _ Hev) as [es [Heq Hes]]. rewrite Heq in Hin.
    apply in_app_or in Hin as [Hin | Hin]; [left; exact Hin |].
    rewrite Forall_forall in Hes. apply Hes, list_elem_of_In, Hin.
  - right. exists r. split; [apply (ev_running _ _ Hev), Hr | exact Hs].
Qed.

Lemma evolves_trans (s1 s2 s3 : Fetch) : evolves s1 s2 -> evolves s2 s3 -> evolves s1 s3.
Proof.
  intros H12 H23. constructor.
  - intros r Hr. apply (ev_running _ _ H12), (ev_running _ _ H23), Hr.
  - rewrite (ev_successes _ _ H23). apply (ev_successes _ _ H12).
  - destruct (ev_errc _ _ H12) as [es1 [E1 F1]]. destruct (ev_errc _ _ H23) as [es2 [E2 F2]].
    exists (es1 ++ es2). split; [rewrite E2, E1; symmetry; apply app_assoc |].
    apply Forall_app. split; [exact F1 |].
    eapply Forall_impl; [exact F2 |]. intros e He. apply (error_of_evolves s1 s2 e H12 He).
  - intros Hp. apply (ev_pending _ _ H23), (ev_pending _ _ H12), Hp.
  - pose proof (ev_shrinks _ _ H12). pose proof (ev_shrinks _ _ H23). lia.
Qed.

(** A goroutine that completes sends its one message. *)
Lemma finish_evolves (j : nat) (s : Fetch) :
  Forall completes (running s) ->
  exists s', finish j s = Returns s' /\ evolves s s' /\ Forall completes (running s') /\
             (is_Some (running s !! j) ->
              (length (running s') < length (running s))%nat /\ idle s' = false).
Proof.
  intros Hall. unfold finish. destruct (running s !! j) as [r |] eqn:Hj.
  2:{ exists s. split; [reflexivity |]. split; [apply evolves_refl |]. split; [exact Hall |].
      intros [x Hx]. discriminate Hx. }
  destruct (lookup_delete_split _ _ _ Hj) as [l1 [l2 [Hl Hd]]].
  assert (Hr : completes r).
  { rewrite Forall_forall in Hall. apply Hall. eapply list_elem_of_lookup_2, Hj. }
  assert (Hsub : forall x, In x (delete j (running s)) -> In x (running s)).
  { intros x Hx. rewrite Hd in Hx. rewrite Hl. apply in_app_or in Hx as [Hx | Hx];
      apply in_or_app; [left | right; right]; exact Hx. }
  assert (Hall' : Forall completes (delete j (running s))).
  { rewrite Forall_forall in Hall |- *. intros x Hx.
    apply Hall, list_elem_of_In, Hsub, list_elem_of_In, Hx. }
  assert (Hlen : (length (delete j (running s)) < length (running s))%nat).
  { rewrite Hd, Hl. rewrite !length_app. cbn. lia. }
  destruct Hr as [[st [e |]] ->].
  - eexists. split; [reflexivity |]. split; [| split; [exact Hall' |]].
    + constructor; cbn [running c errc].
      * exact Hsub.
      * rewrite Hd, Hl, !successes_app. cbn. lia.
      * exists [e]. split; [reflexivity |]. constructor; [| constructor].
        right. exists (Returns (st, Some e)). split; [| exists st; reflexivity].
        rewrite Hl. apply in_or_app. right. left. reflexivity.
      * intros _. left. destruct (errc s); discriminate.
      * lia.
    + intros _. split; [exact Hlen |]. unfold idle. cbn [c errc].
      destruct (c s); [destruct (errc s) |]; reflexivity.
  - eexists. split; [reflexivity |]. split; [| split; [exact Hall' |]].
    + constructor; cbn [running c errc].
      * exact Hsub.
      * rewrite Hd, Hl, !successes_app, length_app. cbn. lia.
      * exists []. split; [symmetry; apply app_nil_r | constructor].
      * intros [Hne | [r [e [Hr Hs]]]]; [left; exact Hne |].
        right. exists r, e. split; [| exact Hs].
        rewrite Hl in Hr. rewrite Hd. apply in_app_or in Hr as [Hr | [Hr | Hr]].
        -- apply in_or_app. left. exact Hr.
        -- subst r. destruct Hs as [st' Hs]. discriminate Hs.
        -- apply in_or_app. right. exact Hr.
      * lia.
    + intros _. split; [exact Hlen |]. unfold idle. cbn [c errc].
      destruct (c s); reflexivity.
Qed.

Lemma arrive_evolves (js : list nat) (s : Fetch) :
  Forall completes (running s) ->
  exists s', arrive js s = Returns s' /\ evolves s s' /\ Forall completes (running s').
Proof.
  revert s. induction js as [| j js IH]; intros s Hall; cbn [arrive].
  - exists s. split; [reflexivity |]. split; [apply evolves_refl | exact Hall].
  - destruct (finish_evolves j s Hall) as [s1 [-> [Hev1 [Hall1 _]]]]. cbn.
    destruct (IH s1 Hall1) as [s2 [-> [Hev2 Hall2]]].
    exists s2. split; [reflexivity |]. split; [eapply evolves_trans; eassumption | exact Hall2].
Qed.

(** With an error pending, the [select] does not wait forever. *)
Lemma await_evolves (n : nat) (s : Fetch) :
  Forall completes (running s) -> error_pending s ->
  (length (running s) <= n)%nat ->
  exists s', await n s = Returns s' /\ evolves s s' /\ Forall completes (running s') /\
             idle s' = false.
Proof.
  revert s. induction n as [| n IH]; intros s Hall Hp Hn.
  - cbn [await]. destruct (idle s) eqn:Hidle.
    + exfalso. destruct Hp as [Hne | [r [e [Hr _]]]].
      * unfold idle in Hidle. destruct (c s); [destruct (errc s) |]; congruence.
      * destruct (running s); [destruct Hr | cbn in Hn; lia].
    + exists s. split; [reflexivity |]. split; [apply evolves_refl | auto].
  - cbn [await]. destruct (idle s) eqn:Hidle.
    2:{ exists s. split; [reflexivity |]. split; [apply evolves_refl | auto]. }
    destruct (finish_evolves 0 s Hall) as [s1 [-> [Hev1 [Hall1 Hdone]]]]. cbn.
    destruct (running s) as [| r0 rs] eqn:Hrun.
    + exfalso. destruct Hp as [Hne | [r [e [Hr _]]]].
      * unfold idle in Hidle. destruct (c s); [destruct (errc s) |]; congruence.
      * rewrite Hrun in Hr. destruct Hr.
    + destruct Hdone as [Hlt Hidle1]; [eexists; reflexivity |].
      cbn in Hn, Hlt.
      destruct (IH s1 Hall1 (ev_pending _ _ Hev1 Hp) ltac:(lia)) as [s2 [-> [Hev2 [Hall2 Hi2]]]].
      exists s2. split; [reflexivity |].
      split; [eapply evolves_trans; eassumption | auto].
Qed.

(** The collecting loop, started with more iterations to go than successes
    it can receive and with an error pending, returns nil and the error at
    the head of the error channel. *)
Lemma collect_first_error (todo : nat) (sched : Schedule) (s : Fetch)
  (ret : list SubtreeProto) :
  Forall completes (running s) -> error_pending s ->
  (length (c s) + successes (running s) < todo)%nat ->
  exists final e,
    collect todo sched s ret = Returns (final, (None, Some e)) /\
    head (errc final) = Some e /\ error_of s e.
Proof.
  revert sched s ret. induction todo as [| todo IH]; intros sched s ret Hall Hp Hlt; [lia |].
  cbn [collect].
  destruct (arrive_evolves (arrivals (default (mkStep [] true) (head sched))) s Hall)
    as [s1 [-> [Hev1 Hall1]]]. cbn.
  destruct (await_evolves (length (running s1)) s1 Hall1 (ev_pending _ _ Hev1 Hp) (le_n _))
    as [s2 [-> [Hev2 [Hall2 Hidle]]]]. cbn.
  pose proof (evolves_trans _ _ _ Hev1 Hev2) as Hev.
  pose proof (ev_successes _ _ Hev) as Hsucc.
  pose proof (ev_pending _ _ Hev Hp) as Hp2.
  assert (Hrecv : forall st c',
            c s2 = st :: c' ->
            exists final e,
              collect todo (tail sched) (mkFetch (running s2) c' (errc s2))
                      (ret ++ option_list st) = Returns (final, (None, Some e)) /\
              head (errc final) = Some e /\ error_of s e).
  { intros st c' Hc.
    destruct (IH (tail sched) (mkFetch (running s2) c' (errc s2)) (ret ++ option_list st))
      as [final [e [Hrun [Hhd Hof]]]]; cbn [running c errc].
    - exact Hall2.
    - exact Hp2.
    - rewrite Hc in Hsucc. cbn in Hsucc. lia.
    - exists final, e. split; [exact Hrun |]. split; [exact Hhd |].
      apply (error_of_evolves s s2 e Hev). exact Hof. }
  assert (Hret : forall err rest,
            errc s2 = err :: rest ->
            exists final e,
              Returns (s2, (@None (list SubtreeProto), Some err)) =
                Returns (final, (None, Some e)) /\
              head (errc final) = Some e /\ error_of s e).
  { intros err rest He. exists s2, err. split; [reflexivity |].
    split; [rewrite He; reflexivity |].
    apply (error_of_evolves s s2 err Hev). left. rewrite He. left. reflexivity. }
  unfold idle in Hidle.
  destruct (errc s2) as [| err rest] eqn:He; destruct (c s2) as [| st c'] eqn:Hc.
  - discriminate Hidle.
  - apply (Hrecv st c' eq_refl).
  - apply (Hret err rest eq_refl).
  - destruct (pickErr (default (mkStep [] true) (head sched))).
    + apply (Hret err rest eq_refl).
    + apply (Hrecv st c' eq_refl).
Qed.

Lemma successes_lt_length (l : list FetchResult) :
  (exists r e, In r l /\ sends_error r e) -> (successes l < length l)%nat.
Proof.
  assert (Hle : forall l', (successes l' <= length l')%nat).
  { induction l' as [| r l' IH]; cbn; [lia | destruct (succeeds r); lia]. }
  induction l as [| r l IH]; intros [r0 [e [Hin Hs]]]; [destruct Hin |].
  cbn. destruct Hin as [-> | Hin].
  - destruct Hs as [st ->]. cbn. specialize (Hle l). lia.
  - specialize (IH (ex_intro _ r0 (ex_intro _ e (conj Hin Hs)))).
    destruct (succeeds r); lia.
Qed.

Section FetchClaims.
Context {C : Type} `{SubtreeCache C}.

(** C7: in a [GetMerkleNodes] call on an open transaction whose miss
    handler is run on [batch], if every fetch of the batch returns and at
    least one returns an error, then under every schedule of the goroutines
    the handler returns nil subtrees and the error [e] at the head of the
    error channel (the first error sent), which is the error of one of the
    fetches; what the other fetches returned is not in the result.  A cache
    that passes on the failure of its miss handler makes [GetMerkleNodes]
    return [e] and no node list. *)
Theorem GetMerkleNodes_first_fetch_error (oracle : list NodeID -> Schedule)
  (t : treeTX C) (s : spanRead) (rev : Z) (ids batch : list NodeID) :
  stx t = Some s ->
  Forall (fun id => completes (getSubtree t rev id)) batch ->
  (exists id e0, In id batch /\ sends_error (getSubtree t rev id) e0) ->
  exists e final,
    collect (length batch) (oracle batch) (spawn t rev batch) [] =
      Returns (final, (None, Some e)) /\
    head (errc final) = Some e /\
    (exists id, In id batch /\ sends_error (getSubtree t rev id) e) /\
    fetchSubtrees (oracle batch) t rev batch = Returns (None, Some e) /\
    (relays_miss_error (cache t) ids batch ->
     exists t', GetMerkleNodes oracle t rev ids = Returns (t', (None, Some e))).
Proof.
  intros Hs Hall [id0 [e0 [Hin0 Hs0]]].
  destruct (collect_first_error (length batch) (oracle batch) (spawn t rev batch) [])
    as [final [e [Hrun [Hhd Hof]]]]; cbn [spawn running c errc].
  - apply Forall_map. exact Hall.
  - right. exists (getSubtree t rev id0), e0. split; [apply in_map, Hin0 | exact Hs0].
  - cbn. rewrite <- (length_map (getSubtree t rev) batch).
    apply successes_lt_length.
    exists (getSubtree t rev id0), e0. split; [apply in_map, Hin0 | exact Hs0].
  - assert (Hfetch : fetchSubtrees (oracle batch) t rev batch = Returns (None, Some e)).
    { unfold fetchSubtrees. rewrite Hrun. reflexivity. }
    exists e, final. split; [exact Hrun |]. split; [exact Hhd |]. split; [| split].
    + destruct Hof as [[] | [r [Hr Hse]]].
      apply in_map_iff in Hr as [id [<- Hid]]. exists id. auto.
    + exact Hfetch.
    + intros Hrelay. unfold GetMerkleNodes. rewrite Hs.
      destruct (Hrelay (fun b => fetchSubtrees (oracle b) t rev b) e Hfetch) as [c' ->].
      eexists. reflexivity.
Qed.

End FetchClaims.

Lemma MapCache_relays_three :
  relays_miss_error (cache tx_failing) three_ids three_owners.
Proof.
  intros h e Hh. exists []. cbn [GetNodes MapCache_SubtreeCache]. unfold map_GetNodes.
  change (missing (cache tx_failing) three_ids) with three_owners.
  unfold three_owners in *. rewrite Hh. reflexivity.
Defined.

Lemma GetMerkleNodes_first_fetch_error_witness :
  exists e,
    fetchSubtrees (sample_oracle three_owners) tx_failing 7 three_owners =
      Returns (None, Some e) /\
    exists t', GetMerkleNodes sample_oracle tx_failing 7 three_ids =
                 Returns (t', (None, Some e)).
Proof.
  destruct (GetMerkleNodes_first_fetch_error sample_oracle tx_failing scope_failing 7
              three_ids three_owners eq_refl)
    as [e [final [_ [_ [_ [Hfetch Hget]]]]]].
  - repeat (constructor; [eexists; reflexivity |]). constructor.
  - exists (ownerID nid_c), (External 7%nat). split.
    + right. right. left. reflexivity.
    + eexists. reflexivity.
  - exists e. split; [exact Hfetch | exact (Hget MapCache_relays_three)].
Defined.

(** The sample call, evaluated: the subtree already received is dropped. *)
Example GetMerkleNodes_three_ids :
  GetMerkleNodes sample_oracle tx_failing 7 three_ids =
    Returns (tx_failing, (None, Some (External 7%nat))).
Proof. reflexivity. Qed.

(** ** Node writes *)

Section NodeWrites.
Context {C : Type} `{SubtreeCache C}.

Lemma getLatestRoot_keeps (t t' : treeTX C) (e : option Error) :
  getLatestRoot t = Returns (t', e) ->
  stx t' = stx t /\ treeID t' = treeID t /\ cache t' = cache t.
Proof.
  unfold getLatestRoot. destruct (getLatestRootOnce t).
  - intros Heq. injection Heq as <- _. auto.
  - destruct (latestSTH (stx t) (treeID t)) as [[sth err] | p |]; cbn; intros Heq;
      [| discriminate Heq | discriminate Heq].
    injection Heq as <- _. cbn. auto.
Qed.

Lemma writeRev_keeps (t t' : treeTX C) (w : Z) (e : option Error) :
  writeRev t = Returns (t', (w, e)) ->
  stx t' = stx t /\ treeID t' = treeID t /\ cache t' = cache t.
Proof.
  unfold writeRev. destruct (getLatestRoot t) as [[t0 err] | p |] eqn:Hg; cbn; intros Heq;
    [| discriminate Heq | discriminate Heq].
  apply getLatestRoot_keeps in Hg.
  destruct err; injection Heq as <- _ _; exact Hg.
Qed.

Lemma SetMerkleNodes_resolved (t t1 : treeTX C) (s : spanRead) (W : Z)
  (nodes : list Node) :
  stx t = Some s -> writeRev t = Returns (t1, (W, None)) ->
  SetMerkleNodes t nodes =
    ('(c', err) ← setEach (getSubtree t1 (sub64 W 1)) nodes (cache t1);
     Returns (set_cache t1 c', err)).
Proof. intros Hs Hw. unfold SetMerkleNodes. rewrite Hs, Hw. reflexivity. Qed.

(** [SetMerkleNodes] leaves the backend scope as it was. *)
Lemma SetMerkleNodes_keeps_stx (t t' : treeTX C) (nodes : list Node)
  (err : option Error) :
  SetMerkleNodes t nodes = Returns (t', err) -> stx t' = stx t.
Proof.
  unfold SetMerkleNodes. destruct (stx t) as [s |] eqn:Hs.
  2:{ intros Heq. injection Heq as <- _. exact Hs. }
  destruct (writeRev t) as [[t1 [w e]] | p |] eqn:Hw; cbn; intros Heq;
    [| discriminate Heq | discriminate Heq].
  destruct (writeRev_keeps _ _ _ _ Hw) as [Hstx _].
  destruct e as [e |].
  - injection Heq as <- _. rewrite Hstx. exact Hs.
  - destruct (setEach _ nodes (cache t1)) as [[c' e'] | p |]; cbn in Heq;
      [| discriminate Heq | discriminate Heq].
    injection Heq as <- _. cbn. rewrite Hstx. exact Hs.
Qed.

Lemma setEach_stops (load : GetSubtreeFunc) (pre post : list Node) (n : Node)
  (c0 c_i c_f : C) (e : Error) :
  setEach load pre c0 = Returns (c_i, None) ->
  SetNodeHash c_i (nodeID n) (Hash n) load = Returns (c_f, Some e) ->
  setEach load (pre ++ n :: post) c0 = Returns (c_f, Some e).
Proof.
  revert c0. induction pre as [| m pre IH]; intros c0 Hpre Hn; cbn [app setEach] in *.
  - injection Hpre as ->. rewrite Hn. reflexivity.
  - destruct (SetNodeHash c0 (nodeID m) (Hash m) load) as [[c1 [e1 |]] | p |]; cbn in *;
      try discriminate Hpre.
    apply IH; assumption.
Qed.



(** For every cache: when the calls for [pre] have succeeded and the call
    for the next node [n] fails with [e], [SetMerkleNodes] returns [e] at
    once, whatever nodes follow, and the transaction keeps the cache that the
    failed call left and its scope. *)
Lemma SetMerkleNodes_stops_at_first_error (t t1 : treeTX C) (s : spanRead) (W : Z)
  (pre post : list Node) (n : Node) (c_i c_f : C) (e : Error) :
  stx t = Some s -> writeRev t = Returns (t1, (W, None)) ->
  setEach (getSubtree t1 (sub64 W 1)) pre (cache t1) = Returns (c_i, None) ->
  SetNodeHash c_i (nodeID n) (Hash n) (getSubtree t1 (sub64 W 1)) = Returns (c_f, Some e) ->
  let t' := set_cache t1 c_f in
  SetMerkleNodes t (pre ++ n :: post) = Returns (t', Some e) /\
  stx t' = stx t /\ cache t' = c_f /\
  (forall r active wb, s = ReadWriteTransaction r active wb ->
     Commit t' =
       (let '(c', (t'', err)) := Flush c_f storeSubtrees t' in
        (set_stx (set_cache t'' c') None, err))).
Proof.
  intros Hs Hw Hpre Hn t'.
  destruct (writeRev_keeps _ _ _ _ Hw) as [Hstx _].
  split; [| split; [exact Hstx | split; [reflexivity |]]].
  - rewrite (SetMerkleNodes_resolved t t1 s W _ Hs Hw).
    rewrite (setEach_stops _ pre post n (cache t1) c_i c_f e Hpre Hn). reflexivity.
  - intros r active wb ->. unfold Commit, flushSubtrees. subst t'. cbn [stx cache set_cache].
    rewrite Hstx, Hs.
    destruct (Flush c_f storeSubtrees (set_cache t1 c_f)) as [c' [t'' err]]. reflexivity.
Qed.

End NodeWrites.





(** * Further properties of the code *)

(** ** Reading the tree head *)

Lemma forEachRow_app {R S} (f : R -> S -> S * option Error) (l1 l2 : list R) (s : S) :
  forEachRow f (l1 ++ l2) s =
    match forEachRow f l1 s with
    | (s', Some e) => (s', Some e)
    | (s', None) => forEachRow f l2 s'
    end.
Proof.
  revert s. induction l1 as [| r l1 IH]; intros s; cbn [app forEachRow]; [reflexivity |].
  destruct (f r s) as [s' [e |]]; [reflexivity | apply IH].
Qed.

Lemma readHead_error_any_state (r : TreeHeadRow) (e : Error) (th th' : option TreeHead) :
  snd (readHead r th) = Some e -> readHead r th' = (th', Some e).
Proof.
  destruct r as [a b c0 d [sig | es] rev [meta | em] | e0]; cbn; intros Heq;
    try discriminate Heq; injection Heq as <-; reflexivity.
Qed.

Lemma forEachRow_heads_decode (rows : list TreeHeadRow) (th : option TreeHead) :
  Forall head_decodes rows ->
  exists th', forEachRow readHead rows th = (th', None) /\ (rows = [] -> th' = th).
Proof.
  intros Hall. revert th. induction Hall as [| r rows Hr _ IH]; intros th; cbn [forEachRow].
  - exists th. auto.
  - destruct Hr as [a [b [c0 [d [sig [rev [meta ->]]]]]]]. cbn.
    destruct (IH (Some (mkTreeHead a b c0 d (Some sig) rev (Some meta)))) as [th' [-> _]].
    exists th'. split; [reflexivity | discriminate].
Qed.

(** X1: when every row the query delivers decodes and the iterator ends
    without error, [latestSTH] returns the tree head of the row delivered
    last, with its signature and metadata, and no error. *)
Theorem latestSTH_returns_last_row (s : spanRead) (tid : Z) (pre : list TreeHeadRow)
  (treeId tsNanos treeSize : Z) (rootHash : list byte) (sig : DigitallySigned)
  (rev : Z) (meta : Any) :
  Query (reader s) tid =
    mkRows (pre ++ [HeadRow treeId tsNanos treeSize rootHash (Encoded sig) rev (Encoded meta)])
           None ->
  Forall head_decodes pre ->
  latestSTH (Some s) tid =
    Returns (Some (mkTreeHead treeId tsNanos treeSize rootHash (Some sig) rev (Some meta)),
             None).
Proof.
  intros Hq Hpre. unfold latestSTH, Do. rewrite Hq. cbn [delivered failure].
  rewrite forEachRow_app.
  destruct (forEachRow_heads_decode pre None Hpre) as [th' [-> _]]. reflexivity.
Qed.

(** X2: a row on which [r.Columns] or the decoding of the signature or of
    the metadata fails makes [latestSTH] return that error and no tree head,
    whatever rows decoded before it and whatever follows; and an iterator
    that ends with a backend error after rows that all decode makes it return
    that error and no tree head.  Neither is reported as
    [ErrTreeNeedsInit]. *)
Theorem latestSTH_error_hides_heads (s : spanRead) (tid : Z) :
  (forall pre bad post fail e,
     Query (reader s) tid = mkRows (pre ++ bad :: post) fail ->
     Forall head_decodes pre -> snd (readHead bad None) = Some e ->
     latestSTH (Some s) tid = Returns (None, Some e)) /\
  (forall rows e,
     Query (reader s) tid = mkRows rows (Some e) ->
     Forall head_decodes rows ->
     latestSTH (Some s) tid = Returns (None, Some (External e))).
Proof.
  split.
  - intros pre bad post fail e Hq Hpre Hbad. unfold latestSTH, Do. rewrite Hq.
    cbn [delivered failure]. rewrite forEachRow_app.
    destruct (forEachRow_heads_decode pre None Hpre) as [th' [-> _]].
    cbn [forEachRow]. rewrite (readHead_error_any_state bad e None th' Hbad).
    destruct th'; reflexivity.
  - intros rows e Hq Hrows. unfold latestSTH, Do. rewrite Hq. cbn [delivered failure].
    destruct (forEachRow_heads_decode rows None Hrows) as [th' [-> _]].
    destruct th'; reflexivity.
Qed.

Lemma latestSTH_returns_last_row_witness :
  latestSTH (Some (ReadOnlyTransaction (sample_reader [head_rev4; head_rev9] []))) 1 =
    Returns (Some (mkTreeHead 1 2000 9 [x12] (Some [x53]) 9 (Some [x54])), None).
Proof.
  apply (latestSTH_returns_last_row _ 1 [head_rev4]); [reflexivity |].
  constructor; [| constructor]. unfold head_decodes, head_rev4. eauto 10.
Defined.

Lemma latestSTH_error_hides_heads_witness :
  latestSTH (Some (ReadOnlyTransaction (sample_reader [head_rev4; head_bad_sig; head_rev9] [])))
            1 = Returns (None, Some (External 3%nat)) /\
  latestSTH (Some (ReadOnlyTransaction
                     (mkReader (fun _ => mkRows [head_rev4] (Some 8%nat))
                               (fun _ _ => mkRows [] None)))) 1 =
    Returns (None, Some (External 8%nat)).
Proof.
  split.
  - destruct (latestSTH_error_hides_heads
                (ReadOnlyTransaction (sample_reader [head_rev4; head_bad_sig; head_rev9] [])) 1)
      as [Hrow _].
    apply (Hrow [head_rev4] head_bad_sig [head_rev9] None); [reflexivity | | reflexivity].
    constructor; [| constructor]. unfold head_decodes, head_rev4. eauto 10.
  - destruct (latestSTH_error_hides_heads
                (ReadOnlyTransaction
                   (mkReader (fun _ => mkRows [head_rev4] (Some 8%nat))
                             (fun _ _ => mkRows [] None))) 1) as [_ Hfail].
    apply (Hfail [head_rev4]); [reflexivity |].
    constructor; [| constructor]. unfold head_decodes, head_rev4. eauto 10.
Defined.

(** ** Resolution happens once *)

Lemma sub64_add64 (r : Z) : - 2 ^ 63 <= r < 2 ^ 63 -> sub64 (add64 r 1) 1 = r.
Proof.
  intros Hr. unfold sub64, add64, wrap64.
  destruct (Z.eq_dec r (2 ^ 63 - 1)) as [-> | Hne]; [reflexivity |].
  rewrite (Z.mod_small (r + 1 + 2 ^ 63)) by lia.
  rewrite Z.mod_small by lia. lia.
Qed.

Section Resolution.
Context {C : Type} `{SubtreeCache C}.

(** X3: once [getLatestRoot] has returned, every later call returns the
    same error (or nil) and leaves the transaction as it is, without reading:
    the outcome is the same whatever the scope would deliver now, and also
    after the scope has been set to nil. *)
Theorem getLatestRoot_resolves_once (t t1 : treeTX C) (e : option Error) :
  getLatestRoot t = Returns (t1, e) ->
  getLatestRootOnce t1 = true /\
  forall s', getLatestRoot (set_stx t1 s') = Returns (set_stx t1 s', e).
Proof.
  unfold getLatestRoot at 1. destruct (getLatestRootOnce t) eqn:Ho.
  - intros Heq. injection Heq as <- <-. split; [exact Ho |].
    intros s'. rewrite getLatestRoot_memo by exact Ho. reflexivity.
  - destruct (latestSTH (stx t) (treeID t)) as [[sth err] | p |]; cbn; intros Heq;
      [| discriminate Heq | discriminate Heq].
    injection Heq as <- <-. split; [reflexivity |].
    intros s'. rewrite getLatestRoot_memo by reflexivity. reflexivity.
Qed.

(** X4: on a transaction closed by [Rollback] before its tree head was ever
    resolved, [ReadRevision] and [WriteRevision] panic on the nil scope; on
    one closed after a successful resolution they return the memoized read
    revision and write revision. *)
Theorem revisions_after_Rollback (t : treeTX C) :
  getLatestRootOnce t = false ->
  (ReadRevision (fst (Rollback t)) = Panics NilDereference /\
   WriteRevision (fst (Rollback t)) = Panics NilDereference) /\
  (forall s t1, stx t = Some s -> getLatestRoot t = Returns (t1, None) ->
     exists th,
       _currentSTH t1 = Some th /\
       ReadRevision (fst (Rollback t1)) = Returns (fst (Rollback t1), TreeRevision th) /\
       WriteRevision (fst (Rollback t1)) =
         Returns (fst (Rollback t1), add64 (TreeRevision th) 1)).
Proof.
  intros Ho. split.
  - unfold ReadRevision, WriteRevision, currentSTH, writeRev, getLatestRoot. cbn.
    rewrite Ho. cbn. auto.
  - intros s t1 Hs Hres.
    destruct (getLatestRoot_first t s Hs Ho) as [[e [He _]] | [th Hth]].
    + rewrite He in Hres. discriminate Hres.
    + rewrite Hth in Hres. injection Hres as <-. exists th. split; [reflexivity |].
      unfold ReadRevision, WriteRevision, currentSTH, writeRev.
      rewrite getLatestRoot_memo by reflexivity. cbn. auto.
Qed.

(** X5: on an open transaction whose tree head [th] resolves (with an int64
    revision), the loader that [SetMerkleNodes] passes to the cache reads the
    subtrees as of [th.TreeRevision], the transaction's read revision, also
    when the write revision has wrapped around. *)
Theorem SetMerkleNodes_loads_at_read_revision (t t1 : treeTX C) (s : spanRead)
  (nodes : list Node) :
  stx t = Some s -> getLatestRootOnce t = false ->
  getLatestRoot t = Returns (t1, None) ->
  exists th,
    _currentSTH t1 = Some th /\
    (- 2 ^ 63 <= TreeRevision th < 2 ^ 63 ->
     SetMerkleNodes t nodes =
       ('(c', err) ← setEach (getSubtree t1 (TreeRevision th)) nodes (cache t1);
        Returns (set_cache t1 c', err))).
Proof.
  intros Hs Ho Hres.
  destruct (getLatestRoot_first t s Hs Ho) as [[e [He _]] | [th Hth]].
  - rewrite He in Hres. discriminate Hres.
  - rewrite Hth in Hres. injection Hres as <-. exists th. split; [reflexivity |].
    intros Hr.
    assert (Hw : writeRev t =
                 Returns (mkTreeTX (treeID t) (stx t) (Some th) None
                                   (add64 (TreeRevision th) 1) (cache t) true,
                          (add64 (TreeRevision th) 1, None))).
    { unfold writeRev. rewrite Hth. reflexivity. }
    rewrite (SetMerkleNodes_resolved t _ s _ nodes Hs Hw), (sub64_add64 _ Hr). reflexivity.
Qed.

(** X6: when the resolution of the tree head fails with [e] (for a tree
    without head, [ErrTreeNeedsInit]), [SetMerkleNodes] returns [e] whatever
    the nodes, without any call to the cache and without touching the scope;
    a second call returns [e] again. *)
Theorem SetMerkleNodes_unresolved_fails (t : treeTX C) (s : spanRead) (e : Error)
  (nodes nodes' : list Node) :
  stx t = Some s -> getLatestRootOnce t = false ->
  latestSTH (Some s) (treeID t) = Returns (None, Some e) ->
  exists t',
    SetMerkleNodes t nodes = Returns (t', Some e) /\
    cache t' = cache t /\ stx t' = stx t /\
    SetMerkleNodes t' nodes' = Returns (t', Some e).
Proof.
  intros Hs Ho Hl.
  exists (mkTreeTX (treeID t) (stx t) None (Some e) (_writeRev t) (cache t) true).
  split; [| split; [reflexivity | split; [reflexivity |]]].
  - unfold SetMerkleNodes, writeRev, getLatestRoot. rewrite Hs, Ho, Hl. reflexivity.
  - unfold SetMerkleNodes, writeRev, getLatestRoot. cbn. rewrite Hs. reflexivity.
Qed.

Lemma Close_result (t : treeTX C) :
  snd (Close t) = None /\ stx (fst (Close t)) = None.
Proof.
  unfold Close. destruct (IsOpen t) eqn:Hopen; unfold IsOpen in Hopen.
  - unfold Rollback. destruct (stx t); [cbn; auto | discriminate Hopen].
  - destruct (stx t) eqn:Hs; [discriminate Hopen |]. cbn. auto.
Qed.

(** X7: after [Commit], [Rollback] or [Close], [GetMerkleNodes] and
    [SetMerkleNodes] return [ErrTransactionClosed] for every argument and
    leave the transaction as it is: no read, no cache call, no resolution. *)
Theorem node_calls_after_close (t : treeTX C) (o : Op) (oracle : list NodeID -> Schedule)
  (rev : Z) (ids : list NodeID) (nodes : list Node) :
  let t1 := fst (run_op o t) in
  GetMerkleNodes oracle t1 rev ids = Returns (t1, (None, Some ErrTransactionClosed)) /\
  SetMerkleNodes t1 nodes = Returns (t1, Some ErrTransactionClosed).
Proof.
  intros t1.
  assert (Hs : stx t1 = None).
  { subst t1. destruct o; cbn [run_op].
    - apply Commit_closes.
    - apply Rollback_closes.
    - apply Close_result. }
  unfold GetMerkleNodes, SetMerkleNodes. rewrite Hs. auto.
Qed.

(** X8: [Close] never returns an error and always leaves the transaction
    closed, whether it was open or not; a [Commit] or [Rollback] after it
    returns [ErrTransactionClosed]. *)
Theorem Close_never_fails (t : treeTX C) :
  snd (Close t) = None /\ IsOpen (fst (Close t)) = false /\
  snd (Commit (fst (Close t))) = Some ErrTransactionClosed /\
  snd (Rollback (fst (Close t))) = Some ErrTransactionClosed.
Proof.
  destruct (Close_result t) as [Herr Hs]. split; [exact Herr |].
  split; [apply IsOpen_closed, Hs |].
  rewrite (Commit_closed _ Hs), (Rollback_closed _ Hs). auto.
Qed.

End Resolution.

(** ** Snapshot transactions *)

Lemma snapshot_run_op_closed (o : Op) (t : Snapshot.snapshotTX) :
  Snapshot.stx t = None -> Snapshot.run_op o t = (t, Some ErrTransactionClosed).
Proof.
  intros Hs. destruct o; cbn; unfold Snapshot.Commit, Snapshot.Rollback, Snapshot.Close;
    rewrite Hs; reflexivity.
Qed.

Lemma snapshot_run_ops_closed (ops : list Op) (t : Snapshot.snapshotTX) :
  Snapshot.stx t = None ->
  Snapshot.run_ops ops t = map (fun _ => Some ErrTransactionClosed) ops.
Proof.
  intros Hs. induction ops as [| o ops IH]; cbn [Snapshot.run_ops map]; [reflexivity |].
  rewrite (snapshot_run_op_closed o t Hs), IH. reflexivity.
Qed.

(** X9: on a snapshot transaction, [Commit], [Rollback] and [Close] are the
    same call.  In every sequence of them on an open transaction the first
    call returns nil and each later one returns [ErrTransactionClosed]; on a
    closed transaction every call returns [ErrTransactionClosed], [Close]
    included. *)
Theorem snapshot_only_first_close_succeeds (t : Snapshot.snapshotTX) (o : Op)
  (ops : list Op) :
  Snapshot.run_op o t = Snapshot.Close t /\
  (Snapshot.stx t <> None ->
   Snapshot.run_ops (o :: ops) t = None :: map (fun _ => Some ErrTransactionClosed) ops) /\
  (Snapshot.stx t = None ->
   Snapshot.run_ops (o :: ops) t = map (fun _ => Some ErrTransactionClosed) (o :: ops)).
Proof.
  split; [destruct o; reflexivity |]. split.
  - intros Hopen. cbn [Snapshot.run_ops].
    assert (Hrun : Snapshot.run_op o t = (Snapshot.mkSnapshotTX None, None)).
    { destruct o; cbn; unfold Snapshot.Commit, Snapshot.Rollback, Snapshot.Close;
        destruct (Snapshot.stx t); congruence. }
    rewrite Hrun. rewrite snapshot_run_ops_closed by reflexivity. reflexivity.
  - intros Hs. apply snapshot_run_ops_closed, Hs.
Qed.

(** X10: [checkDatabaseAccessible] returns the error the query's iterator
    ends with, and nil when it ends without one, whatever rows the query
    delivers (none included). *)
Theorem checkDatabaseAccessible_iterator_error {R} (rows : list R)
  (fail : option ExtErr) :
  checkDatabaseAccessible (mkRows rows fail) = External <$> fail.
Proof.
  unfold checkDatabaseAccessible, Do. cbn [delivered failure].
  assert (Hrows : forEachRow (fun (_ : R) (u : unit) => (u, @None Error)) rows tt = (tt, None)).
  { induction rows as [| r rows IH]; cbn [forEachRow]; [reflexivity | exact IH]. }
  rewrite Hrows. reflexivity.
Qed.

Lemma getLatestRoot_resolves_once_witness :
  exists t1,
    getLatestRoot tx_rw = Returns (t1, None) /\ _writeRev t1 = 5 /\
    getLatestRoot (set_stx t1 (Some scope_rev9)) = Returns (set_stx t1 (Some scope_rev9), None) /\
    _writeRev (set_stx t1 (Some scope_rev9)) = 5.
Proof.
  eexists. split; [reflexivity |]. split; [reflexivity |].
  destruct (getLatestRoot_resolves_once tx_rw _ None eq_refl) as [_ Hagain].
  split; [apply Hagain | reflexivity].
Defined.

Lemma revisions_after_Rollback_witness :
  WriteRevision (fst (Rollback tx_rw)) = Panics NilDereference /\
  exists t1,
    getLatestRoot tx_rw = Returns (t1, None) /\
    ReadRevision (fst (Rollback t1)) = Returns (fst (Rollback t1), 4) /\
    WriteRevision (fst (Rollback t1)) = Returns (fst (Rollback t1), 5).
Proof.
  destruct (revisions_after_Rollback tx_rw eq_refl) as [[_ Hpanic] Hmemo].
  split; [exact Hpanic |].
  eexists. split; [reflexivity |].
  destruct (Hmemo scope_rw _ eq_refl eq_refl) as [th [Hth [Hr Hw]]].
  injection Hth as <-. split; [exact Hr | exact Hw].
Defined.

Lemma SetMerkleNodes_loads_at_read_revision_witness :
  exists t1,
    getLatestRoot tx_rw = Returns (t1, None) /\
    SetMerkleNodes tx_rw [node_a] =
      ('(c', err) ← setEach (getSubtree t1 4) [node_a] (cache t1);
       Returns (set_cache t1 c', err)).
Proof.
  eexists. split; [reflexivity |].
  destruct (SetMerkleNodes_loads_at_read_revision tx_rw _ scope_rw [node_a]
              eq_refl eq_refl eq_refl) as [th [Hth Hload]].
  injection Hth as <-. apply Hload. cbn. lia.
Defined.

Lemma SetMerkleNodes_unresolved_fails_witness :
  exists t',
    SetMerkleNodes tx_no_head [node_a] = Returns (t', Some ErrTreeNeedsInit) /\
    cache t' = [] /\
    SetMerkleNodes t' [node_b] = Returns (t', Some ErrTreeNeedsInit).
Proof.
  destruct (SetMerkleNodes_unresolved_fails tx_no_head scope_no_head ErrTreeNeedsInit
              [node_a] [node_b] eq_refl eq_refl eq_refl) as [t' [Hset [Hcache [_ Hagain]]]].
  exists t'. split; [exact Hset |]. split; [exact Hcache | exact Hagain].
Defined.

Lemma snapshot_only_first_close_succeeds_witness :
  Snapshot.run_ops [OpCommit; OpClose; OpRollback] snapshot_open =
    [None; Some ErrTransactionClosed; Some ErrTransactionClosed] /\
  Snapshot.run_ops [OpClose; OpCommit] (Snapshot.mkSnapshotTX None) =
    [Some ErrTransactionClosed; Some ErrTransactionClosed].
Proof.
  split.
  - destruct (snapshot_only_first_close_succeeds snapshot_open OpCommit [OpClose; OpRollback])
      as [_ [Hopen _]].
    apply Hopen. discriminate.
  - destruct (snapshot_only_first_close_succeeds (Snapshot.mkSnapshotTX None) OpClose [OpCommit])
      as [_ [_ Hclosed]].
    apply Hclosed. reflexivity.
Defined.

(** ** Writing subtrees and reading them back *)

Lemma storeEach_active (tid w : Z) (sts : list (option SubtreeProto)) (wb : list Mutation) :
  storeEach tid w sts true wb = (wb ++ map (asInsert tid w) (omap id sts), None).
Proof.
  revert wb. induction sts as [| [st |] sts IH]; intros wb; cbn [storeEach].
  - cbn. rewrite app_nil_r. reflexivity.
  - cbn [Marshal BufferWrite]. rewrite IH. cbn. rewrite <- app_assoc. reflexivity.
  - rewrite IH. reflexivity.
Qed.

Lemma emptyPrefix_keyed (key : list byte) (st : SubtreeProto) :
  default [] (Prefix st) = key ->
  Prefix (emptyPrefix key st) = Some key /\
  Depth (emptyPrefix key st) = Depth st /\
  RootHash (emptyPrefix key st) = RootHash st /\
  Leaves (emptyPrefix key st) = Leaves st /\
  InternalNodes (emptyPrefix key st) = InternalNodes st.
Proof.
  intros Hk. unfold emptyPrefix. destruct (Prefix st) as [p |] eqn:Hp; cbn in Hk; subst key.
  - cbn. rewrite Hp. auto.
  - cbn. auto.
Qed.

Lemma forEachRow_newer_then (key : list byte) (R : Z) (newer rest : list SubtreeRow)
  (r : SubtreeRow) :
  all_newer R newer ->
  forEachRow (readSubtree key R) (newer ++ r :: rest) None =
    match readSubtree key R r None with
    | (ret, Some e) => (ret, Some e)
    | (ret, None) => forEachRow (readSubtree key R) rest ret
    end.
Proof.
  intros Hnewer. rewrite forEachRow_app, (forEachRow_all_newer key R newer Hnewer).
  reflexivity.
Qed.

Section WriteRead.
Context {C : Type} `{SubtreeCache C}.

(** X11: on an active read-write transaction, [storeSubtrees] returns nil
    and appends to the buffered writes one insert into [SubtreeData] per
    non-nil subtree, in the order given, each with the transaction's tree id,
    the subtree's prefix, the transaction's [_writeRev] and the serialized
    subtree; nil subtrees are skipped and the writes buffered before are
    kept. *)
Theorem storeSubtrees_buffers_inserts (t : treeTX C) (r : Reader) (wb : list Mutation)
  (sts : list (option SubtreeProto)) :
  stx t = Some (ReadWriteTransaction r true wb) ->
  storeSubtrees sts t =
    (set_stx t (Some (ReadWriteTransaction r true
                        (wb ++ map (asInsert (treeID t) (_writeRev t)) (omap id sts)))),
     None).
Proof.
  intros Hs. unfold storeSubtrees. rewrite Hs, storeEach_active. reflexivity.
Qed.

(** X12: a subtree [st] that [storeSubtrees] has written at revision [W]
    is read back by [getSubtree]: when the read for the key [st.Prefix]
    delivers the written row after rows of revisions above [R] only, a read
    at any [R >= W] returns [st], with an empty instead of a nil prefix,
    and no error. *)
Theorem stored_subtree_reads_back (t u : treeTX C) (r : Reader) (wb : list Mutation)
  (sts : list (option SubtreeProto)) (st : SubtreeProto) (s : spanRead) (id : NodeID)
  (R : Z) (newer rest : list SubtreeRow) (fail : option ExtErr) :
  let m := asInsert (treeID t) (_writeRev t) st in
  let key := default [] (Prefix st) in
  stx t = Some (ReadWriteTransaction r true wb) -> In (Some st) sts ->
  stx u = Some s -> subtreeKey id = Returns (key, None) ->
  Read (reader s) (treeID u) key = mkRows (newer ++ row_of m :: rest) fail ->
  all_newer R newer -> _writeRev t <= R ->
  In m (buffered (stx (fst (storeSubtrees sts t)))) /\
  getSubtree u R id = Returns (Some (emptyPrefix key st), None) /\
  Prefix (emptyPrefix key st) = Some key /\
  Leaves (emptyPrefix key st) = Leaves st /\ RootHash (emptyPrefix key st) = RootHash st.
Proof.
  intros m key Hs Hin Hu Hkey Hread Hnewer Hle. split; [| split].
  - unfold storeSubtrees. rewrite Hs, storeEach_active. cbn.
    apply in_or_app. right. apply in_map. apply list_elem_of_In.
    apply list_elem_of_omap. exists (Some st). split; [apply list_elem_of_In, Hin | reflexivity].
  - rewrite (getSubtree_read u s id key R Hu Hkey), Hread. unfold Do. cbn [delivered].
    rewrite (forEachRow_newer_then key R newer rest _ Hnewer).
    subst m.
    change (row_of (asInsert (treeID t) (_writeRev t) st))
      with (Row (_writeRev t) (Encoded st)).
    rewrite readSubtree_hit by auto. reflexivity.
  - destruct (emptyPrefix_keyed key st eq_refl) as [Hp [_ [Hr [Hl _]]]]. auto.
Qed.

(** X13: every subtree that [getSubtree] returns has a non-nil prefix equal
    to the subtree key of the requested id. *)
Theorem getSubtree_returns_keyed_subtree (t : treeTX C) (s : spanRead) (id : NodeID)
  (key : list byte) (R : Z) (st : SubtreeProto) (e : option Error) :
  stx t = Some s -> subtreeKey id = Returns (key, None) ->
  getSubtree t R id = Returns (Some st, e) ->
  Prefix st = Some key.
Proof.
  intros Hs Hkey Hget.
  destruct (getSubtree_never_newer t s id key R st e Hs Hkey Hget)
    as [_ [rev [st0 [_ [_ [Hk ->]]]]]].
  apply (emptyPrefix_keyed key st0 Hk).
Qed.

(** X14: the read ends at the first row that qualifies: rows delivered
    after it, and a backend error after it, do not change what [getSubtree]
    returns. *)
Theorem getSubtree_ignores_rows_after_hit (t : treeTX C) (s s' : spanRead) (id : NodeID)
  (key : list byte) (R rev : Z) (st : SubtreeProto) (pre post : list SubtreeRow)
  (fail : option ExtErr) :
  stx t = Some s -> subtreeKey id = Returns (key, None) ->
  Read (reader s) (treeID t) key = mkRows (pre ++ Row rev (Encoded st) :: post) fail ->
  Read (reader s') (treeID t) key = mkRows (pre ++ [Row rev (Encoded st)]) None ->
  rev <= R -> default [] (Prefix st) = key ->
  getSubtree t R id = getSubtree (set_stx t (Some s')) R id.
Proof.
  intros Hs Hkey Hread Hread' Hle Hk.
  rewrite (getSubtree_read t s id key R Hs Hkey), Hread.
  rewrite (getSubtree_read (set_stx t (Some s')) s' id key R eq_refl Hkey).
  cbn [treeID set_stx]. rewrite Hread'. unfold Do. cbn [delivered failure].
  rewrite !forEachRow_app.
  destruct (forEachRow (readSubtree key R) pre None) as [ret [e |]]; [reflexivity |].
  cbn [forEachRow]. rewrite !readSubtree_hit by assumption. reflexivity.
Qed.

(** X15: when the first row at or below the requested revision holds a
    subtree whose prefix differs from the key, [getSubtree] returns no
    subtree and the prefix-mismatch error, whatever rows follow. *)
Theorem getSubtree_prefix_mismatch (t : treeTX C) (s : spanRead) (id : NodeID)
  (key : list byte) (R rev : Z) (st : SubtreeProto) (newer rest : list SubtreeRow)
  (fail : option ExtErr) :
  stx t = Some s -> subtreeKey id = Returns (key, None) ->
  Read (reader s) (treeID t) key = mkRows (newer ++ Row rev (Encoded st) :: rest) fail ->
  all_newer R newer -> rev <= R -> default [] (Prefix st) <> key ->
  getSubtree t R id = Returns (None, Some (ErrPrefixMismatch key (Prefix st))).
Proof.
  intros Hs Hkey Hread Hnewer Hle Hk.
  rewrite (getSubtree_read t s id key R Hs Hkey), Hread. unfold Do. cbn [delivered].
  rewrite (forEachRow_newer_then key R newer rest _ Hnewer).
  unfold readSubtree. cbn. destruct (Z.gtb_spec rev R); [lia |].
  unfold bytes_Equal. rewrite bool_decide_eq_false_2 by congruence. reflexivity.
Qed.

(** X16: a row that does not decode fails the read, also when its revision
    is above the requested one: after rows of later revisions, a row whose
    columns or whose subtree blob cannot be decoded makes [getSubtree] return
    no subtree and the codec error; and when all rows are of later revisions
    and the iterator ends with a backend error, [getSubtree] returns that
    error instead of (nil, nil). *)
Theorem getSubtree_read_errors (t : treeTX C) (s : spanRead) (id : NodeID)
  (key : list byte) (R : Z) (newer : list SubtreeRow) :
  stx t = Some s -> subtreeKey id = Returns (key, None) -> all_newer R newer ->
  (forall bad rest fail e,
     Read (reader s) (treeID t) key = mkRows (newer ++ bad :: rest) fail ->
     (bad = BadRow e \/ exists rev, bad = Row rev (Malformed e)) ->
     getSubtree t R id = Returns (None, Some (External e))) /\
  (forall e,
     Read (reader s) (treeID t) key = mkRows newer (Some e) ->
     getSubtree t R id = Returns (None, Some (External e))).
Proof.
  intros Hs Hkey Hnewer. split.
  - intros bad rest fail e Hread Hbad.
    rewrite (getSubtree_read t s id key R Hs Hkey), Hread. unfold Do. cbn [delivered].
    rewrite (forEachRow_newer_then key R newer rest _ Hnewer).
    destruct Hbad as [-> | [rev ->]]; reflexivity.
  - intros e Hread.
    rewrite (getSubtree_read t s id key R Hs Hkey), Hread. unfold Do. cbn [delivered failure].
    rewrite (forEachRow_all_newer key R newer Hnewer). reflexivity.
Qed.

End WriteRead.

Lemma all_newer_7_root : all_newer 7 [stored (9, st_root)].
Proof. constructor; [| constructor]. exists 9, st_root. split; [reflexivity | lia]. Defined.

Lemma storeSubtrees_buffers_inserts_witness :
  storeSubtrees [Some st_with_node_a; None; Some st_root] tx_failing_resolved =
    (set_stx tx_failing_resolved
       (Some (ReadWriteTransaction failing_reader true
                [Insert subtreeTbl 1 (Some key_0a0b) 5 (Encoded st_with_node_a);
                 Insert subtreeTbl 1 None 5 (Encoded st_root)])),
     None).
Proof.
  apply (storeSubtrees_buffers_inserts tx_failing_resolved failing_reader []
           [Some st_with_node_a; None; Some st_root] eq_refl).
Defined.

Lemma stored_subtree_reads_back_witness :
  getSubtree (tx_rows rows_written_root None) 7 id_root =
    Returns (Some (mkSubtreeProto (Some []) 8 [x44] ∅ ∅), None).
Proof.
  destruct (stored_subtree_reads_back tx_failing_resolved (tx_rows rows_written_root None)
              failing_reader [] [Some st_root] st_root
              (ReadOnlyTransaction (reader_rows rows_written_root None)) id_root 7
              [stored (9, st_root)] [] None eq_refl (or_introl eq_refl) eq_refl eq_refl
              eq_refl all_newer_7_root) as [_ [Hget _]].
  - cbn. lia.
  - exact Hget.
Defined.

Lemma getSubtree_returns_keyed_subtree_witness :
  Prefix (st_hash x05) = Some key_0a0b.
Proof.
  apply (getSubtree_returns_keyed_subtree tx_ro scope_ro id_0a0b key_0a0b 7 (st_hash x05) None
           eq_refl eq_refl eq_refl).
Defined.

Lemma getSubtree_ignores_rows_after_hit_witness :
  getSubtree tx_ro 7 id_0a0b = getSubtree (set_stx tx_ro (Some scope_two_rows)) 7 id_0a0b.
Proof.
  apply (getSubtree_ignores_rows_after_hit tx_ro scope_ro scope_two_rows id_0a0b key_0a0b 7 5
           (st_hash x05) [stored (9, st_hash x09)] [stored (3, st_hash x03)] None
           eq_refl eq_refl eq_refl eq_refl); [lia | reflexivity].
Defined.

Lemma getSubtree_prefix_mismatch_witness :
  getSubtree (tx_rows rows_mismatch None) 7 id_root =
    Returns (None, Some (ErrPrefixMismatch [] (Some [x0a; x0c]))).
Proof.
  apply (getSubtree_prefix_mismatch (tx_rows rows_mismatch None)
           (ReadOnlyTransaction (reader_rows rows_mismatch None)) id_root [] 7 5 st_other
           [stored (9, st_root)] [] None eq_refl eq_refl eq_refl all_newer_7_root);
    [lia | discriminate].
Defined.

Lemma getSubtree_read_errors_witness :
  getSubtree (tx_rows rows_malformed None) 7 id_root =
    Returns (None, Some (External 2%nat)) /\
  getSubtree (tx_rows [stored (9, st_root)] (Some 6%nat)) 7 id_root =
    Returns (None, Some (External 6%nat)).
Proof.
  split.
  - destruct (getSubtree_read_errors (tx_rows rows_malformed None)
                (ReadOnlyTransaction (reader_rows rows_malformed None)) id_root [] 7
                [stored (9, st_root)] eq_refl eq_refl all_newer_7_root) as [Hrow _].
    apply (Hrow (Row 8 (Malformed 2%nat)) [stored (3, st_root)] None); [reflexivity |].
    right. exists 8. reflexivity.
  - destruct (getSubtree_read_errors (tx_rows [stored (9, st_root)] (Some 6%nat))
                (ReadOnlyTransaction (reader_rows [stored (9, st_root)] (Some 6%nat)))
                id_root [] 7 [stored (9, st_root)] eq_refl eq_refl all_newer_7_root)
      as [_ Hfail].
    apply Hfail. reflexivity.
Defined.

(** ** Parallel fetch: all results are collected *)

Lemma subtrees_of_app (l1 l2 : list FetchResult) :
  subtrees_of (l1 ++ l2) = subtrees_of l1 ++ subtrees_of l2.
Proof. unfold subtrees_of. apply bind_app. Qed.

Lemma await_not_idle (n : nat) (s : Fetch) : idle s = false -> await n s = Returns s.
Proof. intros Hi. destruct n; cbn [await]; rewrite Hi; reflexivity. Qed.

(** What the steps of the goroutines keep when every fetch succeeds. *)
Lemma finish_all_succeed (j : nat) (s : Fetch) :
  all_succeed (running s) -> errc s = [] ->
  exists s',
    finish j s = Returns s' /\ all_succeed (running s') /\ errc s' = [] /\
    (length (c s') + length (running s') = length (c s) + length (running s))%nat /\
    to_collect s' ≡ₚ to_collect s /\
    (is_Some (running s !! j) -> c s' <> []).
Proof.
  intros Hall He. unfold finish. destruct (running s !! j) as [r |] eqn:Hj.
  2:{ exists s. repeat split; auto. intros [x Hx]. discriminate Hx. }
  destruct (lookup_delete_split _ _ _ Hj) as [l1 [l2 [Hl Hd]]].
  assert (Hr : succeeds r = true).
  { unfold all_succeed in Hall. rewrite Forall_forall in Hall. apply Hall.
    eapply list_elem_of_lookup_2, Hj. }
  assert (Hall' : all_succeed (delete j (running s))).
  { unfold all_succeed in *. rewrite Hd. rewrite Hl in Hall.
    apply Forall_app in Hall as [H1 H2]. apply Forall_cons in H2 as [_ H2].
    apply Forall_app. auto. }
  destruct r as [[st [e |]] | p |]; try discriminate Hr.
  eexists. split; [reflexivity |]. cbn [running c errc].
  split; [exact Hall' |]. split; [exact He |]. split; [| split].
  - rewrite Hd, Hl, !length_app. cbn. lia.
  - unfold to_collect. cbn [running c]. rewrite Hd, Hl, bind_app, !subtrees_of_app.
    cbn. rewrite app_nil_r.
    change (subtrees_of (Returns (st, None) :: l2)) with (option_list st ++ subtrees_of l2).
    rewrite <- !app_assoc. apply Permutation_app_head.
    rewrite !app_assoc. apply Permutation_app_tail. apply Permutation_app_comm.
  - intros _. destruct (c s); discriminate.
Qed.

Lemma arrive_all_succeed (js : list nat) (s : Fetch) :
  all_succeed (running s) -> errc s = [] ->
  exists s',
    arrive js s = Returns s' /\ all_succeed (running s') /\ errc s' = [] /\
    (length (c s') + length (running s') = length (c s) + length (running s))%nat /\
    to_collect s' ≡ₚ to_collect s.
Proof.
  revert s. induction js as [| j js IH]; intros s Hall He; cbn [arrive].
  - exists s. repeat split; auto.
  - destruct (finish_all_succeed j s Hall He) as [s1 [-> [Hall1 [He1 [Hn1 [Hp1 _]]]]]]. cbn.
    destruct (IH s1 Hall1 He1) as [s2 [-> [Hall2 [He2 [Hn2 Hp2]]]]].
    exists s2. repeat split; auto; [lia | etransitivity; eassumption].
Qed.

Lemma await_all_succeed (s : Fetch) :
  all_succeed (running s) -> errc s = [] ->
  (0 < length (c s) + length (running s))%nat ->
  exists s',
    await (length (running s)) s = Returns s' /\ all_succeed (running s') /\ errc s' = [] /\
    (length (c s') + length (running s') = length (c s) + length (running s))%nat /\
    to_collect s' ≡ₚ to_collect s /\ c s' <> [].
Proof.
  intros Hall He Hpos. destruct (idle s) eqn:Hidle.
  - assert (Hc : c s = []). { unfold idle in Hidle. destruct (c s); [reflexivity | discriminate]. }
    rewrite Hc in Hpos. cbn in Hpos.
    destruct (length (running s)) as [| n] eqn:Hlen; [lia |].
    cbn [await]. rewrite Hidle.
    destruct (finish_all_succeed 0%nat s Hall He) as [s1 [-> [Hall1 [He1 [Hn1 [Hp1 Hne]]]]]].
    cbn. specialize (Hne ltac:(apply lookup_lt_is_Some; lia)).
    rewrite await_not_idle.
    + exists s1. rewrite Hlen in Hn1. repeat split; auto.
    + unfold idle. destruct (c s1); [contradiction | reflexivity].
  - rewrite await_not_idle by exact Hidle. exists s. repeat split; auto.
    unfold idle in Hidle. rewrite He in Hidle. destruct (c s); [discriminate | discriminate].
Qed.

Lemma collect_all_succeed (todo : nat) (sched : Schedule) (s : Fetch)
  (ret : list SubtreeProto) :
  all_succeed (running s) -> errc s = [] ->
  todo = (length (c s) + length (running s))%nat ->
  exists final ret',
    collect todo sched s ret = Returns (final, (Some ret', None)) /\
    ret' ≡ₚ ret ++ to_collect s.
Proof.
  revert sched s ret. induction todo as [| todo IH]; intros sched s ret Hall He Hn.
  - cbn [collect]. exists s, ret. split; [reflexivity |].
    unfold to_collect. destruct (c s); [| discriminate Hn].
    destruct (running s); [| discriminate Hn]. cbn. rewrite app_nil_r. reflexivity.
  - cbn [collect].
    destruct (arrive_all_succeed (arrivals (default (mkStep [] true) (head sched))) s Hall He)
      as [s1 [-> [Hall1 [He1 [Hn1 Hp1]]]]]. cbn.
    destruct (await_all_succeed s1 Hall1 He1 ltac:(lia))
      as [s2 [-> [Hall2 [He2 [Hn2 [Hp2 Hne]]]]]]. cbn.
    rewrite He2. destruct (c s2) as [| st c'] eqn:Hc; [contradiction |].
    destruct (IH (tail sched) (mkFetch (running s2) c' []) (ret ++ option_list st))
      as [final [ret' [Hrun Hperm]]]; cbn [running c errc]; auto.
    + cbn in Hn2. lia.
    + exists final, ret'. split; [exact Hrun |].
      rewrite Hperm, <- Hp1, <- Hp2. unfold to_collect. cbn [running c]. rewrite Hc. cbn.
      rewrite <- !app_assoc. reflexivity.
Qed.

Lemma completes_cases (l : list FetchResult) :
  Forall completes l -> all_succeed l \/ exists r e, In r l /\ sends_error r e.
Proof.
  induction 1 as [| r l [[st [e |]] ->] _ IH].
  - left. constructor.
  - right. exists (Returns (st, Some e)), e. split; [left; reflexivity | exists st; reflexivity].
  - destruct IH as [Hall | [r [e [Hin Hs]]]].
    + left. constructor; [reflexivity | exact Hall].
    + right. exists r, e. split; [right; exact Hin | exact Hs].
Qed.

Section FetchAll.
Context {C : Type} `{SubtreeCache C}.

(** X17: when every fetch of the batch returns without error, the miss
    handler of [GetMerkleNodes] returns, under every schedule of the
    goroutines, no error and exactly the non-nil subtrees fetched, each once,
    in the order in which they were received. *)
Theorem fetchSubtrees_collects_all (sched : Schedule) (t : treeTX C) (rev : Z)
  (batch : list NodeID) :
  Forall (fun id => exists st, getSubtree t rev id = Returns (st, None)) batch ->
  exists sts,
    fetchSubtrees sched t rev batch = Returns (Some sts, None) /\
    sts ≡ₚ subtrees_of (map (getSubtree t rev) batch).
Proof.
  intros Hall.
  destruct (collect_all_succeed (length batch) sched (spawn t rev batch) [])
    as [final [sts [Hrun Hperm]]]; cbn [spawn running c errc].
  - unfold all_succeed. apply Forall_map. eapply Forall_impl; [exact Hall |].
    intros id [st ->]. reflexivity.
  - reflexivity.
  - cbn. rewrite length_map. reflexivity.
  - exists sts. split; [unfold fetchSubtrees; rewrite Hrun; reflexivity |].
    rewrite Hperm. reflexivity.
Qed.

(** X18: when every fetch of the batch returns (with or without error), the
    miss handler returns under every schedule: the collecting loop neither
    waits forever nor panics, and it returns either all subtrees and no error
    or no subtrees and an error. *)
Theorem fetchSubtrees_always_returns (sched : Schedule) (t : treeTX C) (rev : Z)
  (batch : list NodeID) :
  Forall (fun id => completes (getSubtree t rev id)) batch ->
  (exists sts, fetchSubtrees sched t rev batch = Returns (Some sts, None)) \/
  (exists e, fetchSubtrees sched t rev batch = Returns (None, Some e)).
Proof.
  intros Hall.
  assert (Hall' : Forall completes (map (getSubtree t rev) batch)).
  { apply Forall_map. exact Hall. }
  destruct (completes_cases _ Hall') as [Hok | Herr].
  - left.
    destruct (collect_all_succeed (length batch) sched (spawn t rev batch) [])
      as [final [sts [Hrun _]]]; cbn [spawn running c errc]; auto.
    + cbn. rewrite length_map. reflexivity.
    + exists sts. unfold fetchSubtrees. rewrite Hrun. reflexivity.
  - right.
    destruct (collect_first_error (length batch) sched (spawn t rev batch) [])
      as [final [e [Hrun _]]]; cbn [spawn running c errc]; auto.
    + right. exact Herr.
    + cbn. rewrite <- (length_map (getSubtree t rev) batch).
      apply successes_lt_length. exact Herr.
    + exists e. unfold fetchSubtrees. rewrite Hrun. reflexivity.
Qed.

End FetchAll.

Lemma fetchSubtrees_collects_all_witness :
  exists sts,
    fetchSubtrees (sample_oracle found_batch) tx_ro 7 found_batch = Returns (Some sts, None) /\
    sts ≡ₚ subtrees_of (map (getSubtree tx_ro 7) found_batch).
Proof.
  apply (fetchSubtrees_collects_all (sample_oracle found_batch) tx_ro 7 found_batch).
  repeat (constructor; [eexists; reflexivity |]). constructor.
Defined.

Lemma fetchSubtrees_always_returns_witness :
  (exists sts, fetchSubtrees (sample_oracle three_owners) tx_failing 7 three_owners =
                 Returns (Some sts, None)) \/
  (exists e, fetchSubtrees (sample_oracle three_owners) tx_failing 7 three_owners =
               Returns (None, Some e)).
Proof.
  apply (fetchSubtrees_always_returns (sample_oracle three_owners) tx_failing 7 three_owners).
  repeat (constructor; [eexists; reflexivity |]). constructor.
Defined.

(** The sample fetch, evaluated: the nil result is dropped, the two
    subtrees arrive in the order of the schedule. *)
Example fetchSubtrees_found_batch :
  fetchSubtrees (sample_oracle found_batch) tx_ro 7 found_batch =
    Returns (Some [st_hash x05; st_hash x05], None).
Proof. reflexivity. Qed.

(** ** Node writes on a read-only scope *)

Section DroppedWrites.
Context {C : Type} `{SubtreeCache C}.

(** X19: node hashes written with [SetMerkleNodes] on a read-only scope are
    dropped without notice: the following [Commit] returns nil, never calls
    the cache's flush (the cache is left as [SetMerkleNodes] left it) and
    buffers no write. *)
Theorem Commit_read_only_drops_node_writes (t t' : treeTX C) (r : Reader)
  (nodes : list Node) (err : option Error) :
  stx t = Some (ReadOnlyTransaction r) ->
  SetMerkleNodes t nodes = Returns (t', err) ->
  Commit t' = (set_stx t' None, None) /\
  cache (fst (Commit t')) = cache t' /\
  buffered (stx t') = [] /\ buffered (stx (fst (Commit t'))) = [].
Proof.
  intros Hs Hset. apply SetMerkleNodes_keeps_stx in Hset. rewrite Hs in Hset.
  assert (Hc : Commit t' = (set_stx t' None, None)).
  { unfold Commit. rewrite Hset. reflexivity. }
  rewrite Hc, Hset. cbn. auto.
Qed.

End DroppedWrites.

Lemma Commit_read_only_drops_node_writes_witness :
  SetMerkleNodes tx_ro [node_a] = Returns (tx_ro_with_node_a, None) /\
  Commit tx_ro_with_node_a = (set_stx tx_ro_with_node_a None, None) /\
  cache (fst (Commit tx_ro_with_node_a)) = cache_with_node_a /\
  buffered (stx (fst (Commit tx_ro_with_node_a))) = [].
Proof.
  assert (Hset : SetMerkleNodes tx_ro [node_a] = Returns (tx_ro_with_node_a, None)).
  { vm_compute. reflexivity. }
  split; [exact Hset |].
  destruct (Commit_read_only_drops_node_writes tx_ro tx_ro_with_node_a reader_newest_first
              [node_a] None eq_refl Hset) as [Hcommit [Hcache [_ Hbuf]]].
  split; [exact Hcommit |]. split; [exact Hcache | exact Hbuf].
Defined.

(** ** Node writes that precede a failure *)

Lemma find_subtree_first_entry (k : list byte) (m : MapCache) :
  find_subtree k m = fst <$> first_entry k m.
Proof.
  induction m as [| [k' [st d]] m IH]; cbn; [reflexivity |].
  destruct (bool_decide (k = k')); [reflexivity | exact IH].
Qed.

Lemma first_entry_put_eq (k : list byte) (st : SubtreeProto) (d : bool) (m : MapCache) :
  first_entry k (put_subtree k st d m) = Some (st, d).
Proof.
  induction m as [| [k' e] m IH]; cbn.
  - rewrite bool_decide_eq_true_2 by reflexivity. reflexivity.
  - destruct (bool_decide (k = k')) eqn:Hk; cbn.
    + rewrite bool_decide_eq_true_2 by reflexivity. reflexivity.
    + rewrite Hk. exact IH.
Qed.

Lemma first_entry_put_ne (k k' : list byte) (st : SubtreeProto) (d : bool) (m : MapCache) :
  k' <> k -> first_entry k' (put_subtree k st d m) = first_entry k' m.
Proof.
  intros Hne. induction m as [| [k0 e] m IH]; cbn.
  - rewrite bool_decide_eq_false_2 by exact Hne. reflexivity.
  - destruct (bool_decide (k = k0)) eqn:Hk; cbn.
    + apply bool_decide_eq_true_1 in Hk. subst k0.
      rewrite !bool_decide_eq_false_2 by exact Hne. reflexivity.
    + destruct (bool_decide (k' = k0)); [reflexivity | exact IH].
Qed.

Lemma first_entry_In (k : list byte) (e : SubtreeProto * bool) (m : MapCache) :
  first_entry k m = Some e -> In (k, e) m.
Proof.
  induction m as [| [k' e'] m IH]; cbn; [discriminate |].
  destruct (bool_decide (k = k')) eqn:Hk.
  - apply bool_decide_eq_true_1 in Hk. intros Heq. injection Heq as <-. subst k'.
    left. reflexivity.
  - intros Hf. right. apply IH, Hf.
Qed.

(** A dirty subtree of the cache is among those handed to the writer. *)
Lemma holds_hash_dirty (m : MapCache) (k : list byte) (sfx : string) (h : list byte) :
  holds_hash m k sfx h ->
  exists st, In st (omap id (dirty m)) /\ Leaves st !! sfx = Some h.
Proof.
  intros [st [Hf Hl]]. exists st. split; [| exact Hl].
  apply list_elem_of_In, list_elem_of_omap. exists (Some st). split; [| reflexivity].
  unfold dirty. apply list_elem_of_omap. exists (k, (st, true)).
  split; [apply list_elem_of_In, first_entry_In, Hf | reflexivity].
Qed.

(** A call that records a hash puts it into the dirty subtree of its
    address and keeps the hashes held at every other address. *)
Lemma map_SetNodeHash_records (m m' : MapCache) (id : NodeID) (hash : list byte)
  (load : GetSubtreeFunc) :
  map_SetNodeHash m id hash load = Returns (m', None) ->
  holds_hash m' (ownerKey id) (suffix id) hash /\
  forall k sfx h, (ownerKey id, suffix id) <> (k, sfx) ->
    holds_hash m k sfx h -> holds_hash m' k sfx h.
Proof.
  unfold map_SetNodeHash. rewrite find_subtree_first_entry.
  assert (Hput : forall st0,
            (forall st d, first_entry (ownerKey id) m = Some (st, d) -> st0 = st) ->
            let m0 := put_subtree (ownerKey id) (with_leaf st0 (suffix id) hash) true m in
            holds_hash m0 (ownerKey id) (suffix id) hash /\
            forall k sfx h, (ownerKey id, suffix id) <> (k, sfx) ->
              holds_hash m k sfx h -> holds_hash m0 k sfx h).
  { intros st0 Hst0 m0. split.
    - exists (with_leaf st0 (suffix id) hash). split; [apply first_entry_put_eq |].
      cbn. apply lookup_insert_eq.
    - intros k sfx h Hne [st [Hf Hl]].
      destruct (decide (k = ownerKey id)) as [-> | Hk].
      + exists (with_leaf st0 (suffix id) hash). split; [apply first_entry_put_eq |].
        rewrite (Hst0 st true Hf). cbn. rewrite lookup_insert_ne; [exact Hl |].
        intros Heq. apply Hne. rewrite Heq. reflexivity.
      + exists st. split; [| exact Hl]. subst m0. rewrite first_entry_put_ne by exact Hk.
        exact Hf. }
  destruct (first_entry (ownerKey id) m) as [[st d] |] eqn:Hf; cbn.
  - intros Heq. injection Heq as <-. apply Hput. intros st' d' Heq. congruence.
  - destruct (load (ownerID id)) as [[st [e |]] | p |]; cbn; intros Heq; try discriminate Heq.
    injection Heq as <-. apply Hput. intros st' d' Heq. discriminate Heq.
Qed.

Lemma map_SetNodeHash_fails (m m' : MapCache) (id : NodeID) (hash : list byte)
  (load : GetSubtreeFunc) (e : Error) :
  map_SetNodeHash m id hash load = Returns (m', Some e) -> m' = m.
Proof.
  unfold map_SetNodeHash. destruct (find_subtree (ownerKey id) m); [discriminate |].
  destruct (load (ownerID id)) as [[st [e0 |]] | p |]; cbn; intros Heq; try discriminate Heq.
  injection Heq as <- _. reflexivity.
Qed.

(** After the nodes have been recorded, the cache holds for every address
    the hash that the nodes give for it, and the hashes it held at addresses
    the nodes do not touch. *)
Lemma setEach_records (load : GetSubtreeFunc) (nodes : list Node) (m m' : MapCache) :
  setEach load nodes m = Returns (m', None) ->
  forall k sfx h,
    (recorded nodes k sfx = Some h -> holds_hash m' k sfx h) /\
    (recorded nodes k sfx = None -> holds_hash m k sfx h -> holds_hash m' k sfx h).
Proof.
  revert m. induction nodes as [| n nodes IH]; intros m Hrun k sfx h; cbn [setEach recorded] in *.
  - injection Hrun as <-. split; [discriminate | auto].
  - change (SetNodeHash m (nodeID n) (Hash n) load)
      with (map_SetNodeHash m (nodeID n) (Hash n) load) in Hrun.
    destruct (map_SetNodeHash m (nodeID n) (Hash n) load) as [[m1 [e |]] | p |] eqn:Hstep;
      cbn in Hrun; try discriminate Hrun.
    destruct (map_SetNodeHash_records _ _ _ _ _ Hstep) as [Hnew Hkeep].
    destruct (IH m1 Hrun k sfx h) as [IHsome IHnone].
    destruct (recorded nodes k sfx) as [h' |] eqn:Hrec.
    + split; [exact IHsome | discriminate].
    + unfold address. destruct (decide ((ownerKey (nodeID n), suffix (nodeID n)) = (k, sfx)))
        as [Heq | Hne].
      * rewrite bool_decide_eq_true_2 by exact Heq. split; [| discriminate].
        intros Hh. injection Hh as <-. apply IHnone; [reflexivity |].
        injection Heq as <- <-. exact Hnew.
      * rewrite bool_decide_eq_false_2 by exact Hne. split; [discriminate |].
        intros _ Hheld. apply IHnone; [reflexivity |]. apply Hkeep; assumption.
Qed.

Lemma recorded_untouched (nodes : list Node) (k : list byte) (sfx : string) :
  ~ In (k, sfx) (map address nodes) -> recorded nodes k sfx = None.
Proof.
  induction nodes as [| n nodes IH]; cbn [map recorded]; intros Hnin; [reflexivity |].
  rewrite IH by (intros Hin; apply Hnin; right; exact Hin).
  rewrite bool_decide_eq_false_2; [reflexivity |].
  intros Heq. apply Hnin. left. exact Heq.
Qed.

Lemma recorded_In (nodes : list Node) (n : Node) :
  In n nodes ->
  exists h, recorded nodes (ownerKey (nodeID n)) (suffix (nodeID n)) = Some h /\
            (NoDup (map address nodes) -> h = Hash n).
Proof.
  induction nodes as [| n0 nodes IH]; intros Hin; [destruct Hin |].
  cbn [recorded map].
  destruct Hin as [-> | Hin].
  - destruct (recorded nodes (ownerKey (nodeID n)) (suffix (nodeID n))) as [h |] eqn:Hrec.
    + exists h. split; [reflexivity |]. intros Hnd. apply NoDup_cons in Hnd as [Hnin _].
      rewrite recorded_untouched in Hrec; [discriminate Hrec |].
      intros Hin. apply Hnin, list_elem_of_In, Hin.
    + rewrite bool_decide_eq_true_2 by reflexivity. exists (Hash n). auto.
  - destruct (IH Hin) as [h [Hrec Hh]]. rewrite Hrec. exists h. split; [reflexivity |].
    intros Hnd. apply NoDup_cons in Hnd as [_ Hnd]. apply Hh, Hnd.
Qed.

Lemma writeRev_value {C : Type} `{SubtreeCache C} (t t1 : treeTX C) (W : Z) :
  writeRev t = Returns (t1, (W, None)) -> _writeRev t1 = W.
Proof.
  unfold writeRev. destruct (getLatestRoot t) as [[t0 [e |]] | p |]; cbn; intros Heq;
    try discriminate Heq.
  injection Heq as <- <-. reflexivity.
Qed.

(** What [Commit] runs on an active read-write scope with the minimal
    cache: the flush succeeds and buffers one insert per dirty subtree. *)
Lemma flushSubtrees_dirty (t : treeTX MapCache) (r : Reader) (wb : list Mutation) :
  stx t = Some (ReadWriteTransaction r true wb) ->
  snd (flushSubtrees t) = None /\
  buffered (stx (fst (flushSubtrees t))) =
    wb ++ map (asInsert (treeID t) (_writeRev t)) (omap id (dirty (cache t))) /\
  Commit t = (set_stx (fst (flushSubtrees t)) None, None).
Proof.
  intros Hs.
  assert (Hflush : flushSubtrees t =
            (set_cache
               (set_stx t (Some (ReadWriteTransaction r true
                  (wb ++ map (asInsert (treeID t) (_writeRev t)) (omap id (dirty (cache t)))))))
               (map (fun e : list byte * (SubtreeProto * bool) => (fst e, (fst (snd e), false)))
                    (cache t)),
             None)).
  { unfold flushSubtrees. cbn [Flush MapCache_SubtreeCache]. unfold map_Flush, storeSubtrees.
    rewrite Hs, storeEach_active. reflexivity. }
  split; [rewrite Hflush; reflexivity |]. split; [rewrite Hflush; reflexivity |].
  unfold Commit. rewrite Hs, Hflush. reflexivity.
Qed.

(** C10: with the subtree cache modelled from the spec ([MapCache]), on an
    active read-write transaction whose write revision resolves to [W]: when
    the cache has recorded the nodes [pre] and fails with [e] on the next node
    [n], [SetMerkleNodes] returns [e] at once, whatever nodes follow, and
    leaves the cache as it was before the failed call.  For every node of
    [pre] the cache still holds, in a dirty subtree, the hash given for the
    node's leaf (the node's own hash when no two nodes of [pre] share a
    leaf), and the next [Commit] succeeds and its flush buffers an insert at
    revision [W] of a subtree that holds this hash. *)
Theorem SetMerkleNodes_earlier_hashes_flushed (t t1 : treeTX MapCache) (r : Reader)
  (wb : list Mutation) (W : Z) (pre post : list Node) (n : Node)
  (c_i c_f : MapCache) (e : Error) :
  stx t = Some (ReadWriteTransaction r true wb) ->
  writeRev t = Returns (t1, (W, None)) ->
  setEach (getSubtree t1 (sub64 W 1)) pre (cache t1) = Returns (c_i, None) ->
  SetNodeHash c_i (nodeID n) (Hash n) (getSubtree t1 (sub64 W 1)) = Returns (c_f, Some e) ->
  let t' := set_cache t1 c_f in
  SetMerkleNodes t (pre ++ n :: post) = Returns (t', Some e) /\
  c_f = c_i /\
  Commit t' = (set_stx (fst (flushSubtrees t')) None, None) /\
  forall m, In m pre ->
    exists h st,
      recorded pre (ownerKey (nodeID m)) (suffix (nodeID m)) = Some h /\
      (NoDup (map address pre) -> h = Hash m) /\
      holds_hash (cache t') (ownerKey (nodeID m)) (suffix (nodeID m)) h /\
      In (asInsert (treeID t) W st) (buffered (stx (fst (flushSubtrees t')))) /\
      Leaves st !! suffix (nodeID m) = Some h.
Proof.
  intros Hs Hw Hpre Hn t'. subst t'.
  destruct (writeRev_keeps _ _ _ _ Hw) as [Hstx [Hid _]].
  pose proof (writeRev_value t t1 W Hw) as HW.
  assert (Hs' : stx (set_cache t1 c_f) = Some (ReadWriteTransaction r true wb)).
  { cbn. rewrite Hstx. exact Hs. }
  destruct (flushSubtrees_dirty (set_cache t1 c_f) r wb Hs') as [_ [Hbuf Hcommit]].
  assert (Hcf : c_f = c_i) by (apply (map_SetNodeHash_fails _ _ _ _ _ _ Hn)).
  split; [| split; [exact Hcf | split; [exact Hcommit |]]].
  - rewrite (SetMerkleNodes_resolved t t1 _ W _ Hs Hw).
    rewrite (setEach_stops _ pre post n (cache t1) c_i c_f e Hpre Hn). reflexivity.
  - intros m Hm. destruct (recorded_In pre m Hm) as [h [Hrec Hh]].
    assert (Hheld : holds_hash (cache (set_cache t1 c_f)) (ownerKey (nodeID m))
                               (suffix (nodeID m)) h).
    { cbn [cache set_cache]. rewrite Hcf.
      destruct (setEach_records _ pre (cache t1) c_i Hpre
                  (ownerKey (nodeID m)) (suffix (nodeID m)) h) as [Hsome _].
      apply Hsome, Hrec. }
    destruct (holds_hash_dirty _ _ _ _ Hheld) as [st [Hst Hl]].
    exists h, st. split; [exact Hrec |]. split; [exact Hh |]. split; [exact Hheld |].
    split; [| exact Hl].
    rewrite Hbuf. apply in_or_app. right.
    cbn [treeID _writeRev set_cache]. rewrite Hid, HW. apply in_map, Hst.
Qed.

Lemma SetMerkleNodes_earlier_hashes_flushed_witness :
  SetMerkleNodes tx_failing [node_a; node_c; node_b] =
    Returns (set_cache tx_failing_resolved cache_with_node_a, Some (External 7%nat)) /\
  exists st,
    In (asInsert 1 5 st)
       (buffered (stx (fst (flushSubtrees (set_cache tx_failing_resolved cache_with_node_a))))) /\
    Leaves st !! suffix nid_a = Some [x77].
Proof.
  destruct (SetMerkleNodes_earlier_hashes_flushed tx_failing tx_failing_resolved failing_reader
              [] 5 [node_a] [node_b] node_c cache_with_node_a cache_with_node_a
              (External 7%nat)) as [Hset [_ [_ Hall]]]; try (vm_compute; reflexivity).
  split; [exact Hset |].
  destruct (Hall node_a (or_introl eq_refl)) as [h [st [_ [Hh [_ [Hin Hl]]]]]].
  exists st. split; [exact Hin |]. etransitivity; [exact Hl |]. f_equal. apply Hh.
  repeat constructor. intros Hin'. inversion Hin'.
Defined.
